(** * Response shaping pipeline of the Nyxie chatbot

    A shallow embedding of the two algorithmic parts of the repository:

    - [Segmenter]: [split_long_message] of [main.py], which cuts a reply
      into chunks that fit one transport message;
    - [Selector]: the [DynamicResponseManager] of [dynamic_response.py],
      which picks a response-length class per turn.

    Python strings are modelled as lists of characters ([list ascii]),
    Python [int] as [Z], [len] as [length].  Python floats are idealised
    as exact rationals ([Q]); a float division by zero raises
    [ZeroDivisionError] exactly as in Python.  What is proved of the
    selector does not depend on rounding or underflow: which exceptions
    a call can raise and when, what each stage does to each weight, the
    sign and the order of weights, the state of the manager and the
    number of draws. *)

From Stdlib Require Import Ascii String List Arith ZArith QArith Qpower Qminmax Lia Lqa Bool.
Import ListNotations.

Local Open Scope Z_scope.

(** ** Python strings *)

Module PyStr.

Definition str := list ascii.

Definition sp : ascii := " "%char.
Definition nl : ascii := "010"%char.
Definition dot : ascii := "."%char.

(** String literals of the source, written as Rocq strings. *)
Definition lit (s : string) : str := list_ascii_of_string s.

(** [len(s)] as a Python int. *)
Definition len (s : str) : Z := Z.of_nat (List.length s).

(** Truth value of a string: [if s:] holds for the non-empty ones. *)
Definition truthy (s : str) : bool :=
  match s with [] => false | _ :: _ => true end.

(** [s.startswith(pre)]. *)
Fixpoint startswith (s pre : str) {struct pre} : bool :=
  match pre, s with
  | [], _ => true
  | _ :: _, [] => false
  | p :: pre', c :: s' => Ascii.eqb p c && startswith s' pre'
  end.

(** [s.split(sep)] for a non-empty [sep]: the text is scanned from the
    left, every occurrence of [sep] that does not overlap the previous
    one closes a piece.  [skip] counts the characters of a separator
    that was found and is still being consumed. *)
Fixpoint split_go (sep s : str) (skip : nat) : list str :=
  match s with
  | [] => [[]]
  | c :: s' =>
      match skip with
      | S k => split_go sep s' k
      | O =>
          if startswith s sep
          then [] :: split_go sep s' (List.length sep - 1)
          else match split_go sep s' 0 with
               | p :: ps => (c :: p) :: ps
               | [] => [[c]]
               end
      end
  end.

Definition split (sep s : str) : list str := split_go sep s 0.

(** [s.replace(old, new)] for a non-empty [old], same left-to-right scan. *)
Fixpoint replace_go (old new s : str) (skip : nat) : str :=
  match s with
  | [] => []
  | c :: s' =>
      match skip with
      | S k => replace_go old new s' k
      | O =>
          if startswith s old
          then new ++ replace_go old new s' (List.length old - 1)
          else c :: replace_go old new s' 0
      end
  end.

Definition replace (old new s : str) : str := replace_go old new s 0.

(** [sep.join(l)]. *)
Fixpoint join (sep : str) (l : list str) : str :=
  match l with
  | [] => []
  | [x] => x
  | x :: rest => x ++ sep ++ join sep rest
  end.

(** [c.isspace()] on the code points 0..255: space, tab, newline,
    vertical tab, form feed, carriage return, the four separators
    28..31, next line (133) and no-break space (160). *)
Definition isspace (c : ascii) : bool :=
  let n := nat_of_ascii c in
  ((n =? 32) || ((9 <=? n) && (n <=? 13)) || ((28 <=? n) && (n <=? 31))
   || (n =? 133) || (n =? 160))%nat.

(** The characters of [s] that are not whitespace, in order. *)
Definition content (s : str) : str := filter (fun c => negb (isspace c)) s.

End PyStr.

(** ** The segmenter: [split_long_message] *)

Module Segmenter.
Import PyStr.

Definition MAX_MESSAGE_LENGTH : Z := 4096.

(** The two mutable locals of the function: [chunks], [current_chunk]. *)
Definition acc := (list str * str)%type.

(** Body of [for word in words]. *)
Definition word_step (max_length : Z) (a : acc) (word : str) : acc :=
  let '(chunks, current_chunk) := a in
  if max_length <? len current_chunk + len word + 1
  then (chunks ++ [current_chunk], word)
  else if truthy current_chunk
       then (chunks, current_chunk ++ sp :: word)
       else (chunks, word).

(** [if current_chunk: chunks.append(current_chunk); current_chunk = ""] *)
Definition flush (a : acc) : acc :=
  let '(chunks, current_chunk) := a in
  if truthy current_chunk then (chunks ++ [current_chunk], []) else a.

(** Body of [for sentence in sentences]. *)
Definition sentence_step (max_length : Z) (a : acc) (sentence : str) : acc :=
  let '(chunks, current_chunk) := a in
  if max_length <? len current_chunk + len sentence + 1
  then
    let a1 := flush a in
    if max_length <? len sentence
    then fold_left (word_step max_length) (split [sp] sentence) a1
    else (fst a1, sentence)
  else if truthy current_chunk
       then (chunks, current_chunk ++ sp :: sentence)
       else (chunks, sentence).

(** Body of [for paragraph in paragraphs]. *)
Definition paragraph_step (max_length : Z) (a : acc) (paragraph : str) : acc :=
  let '(chunks, current_chunk) := a in
  if max_length <? len current_chunk + len paragraph + 2
  then
    let a1 := flush a in
    if max_length <? len paragraph
    then fold_left (sentence_step max_length)
           (split [nl] (replace [dot; sp] [dot; nl] paragraph)) a1
    else (fst a1, paragraph)
  else if truthy current_chunk
       then (chunks, current_chunk ++ nl :: nl :: paragraph)
       else (chunks, paragraph).

Definition split_long_message (text : str) (max_length : Z) : list str :=
  if len text <=? max_length then [text]
  else
    let '(chunks, current_chunk) :=
      fold_left (paragraph_step max_length) (split [nl; nl] text) ([], []) in
    if truthy current_chunk then chunks ++ [current_chunk] else chunks.

(** The default of the parameter [max_length]. *)
Definition split_long_message_default (text : str) : list str :=
  split_long_message text (MAX_MESSAGE_LENGTH - 100).

End Segmenter.

(** ** The selector: [DynamicResponseManager] *)

Module Selector.
Import PyStr.

Local Open Scope Q_scope.
Local Open Scope string_scope.

(** The exceptions the code of the manager can raise. *)
Inductive exn : Type :=
| KeyError        (* [d[k]] on a key the dict does not hold *)
| ValueError      (* [l.remove(x)] on an absent [x] *)
| IndexError      (* [random.choice] on an empty list *)
| ZeroDivisionError.

Inductive result (A : Type) : Type :=
| Ok (a : A)
| Raise (e : exn).
Arguments Ok {A} a.
Arguments Raise {A} e.

(** The module [random]: the source holds every value it will ever
    produce; [used] counts the draws made so far.  [floats] feeds
    [random.random()], [picks] feeds [random.choice]. *)
Record rng : Type := MkRng {
  floats : nat -> Q;
  picks : nat -> nat;
  used : nat
}.

(** The two attributes of a [DynamicResponseManager]. *)
Record manager : Type := MkManager {
  last_response_type : option string;
  consecutive_same_type_count : Z
}.

(** What a method call can read and write. *)
Record world : Type := MkWorld {
  self : manager;
  rnd : rng
}.

(** [DynamicResponseManager.__init__]. *)
Definition init : manager :=
  {| last_response_type := None; consecutive_same_type_count := 0%Z |}.

(** Computations that read and write the world and may raise; what was
    written before an exception stays written. *)
Definition M (A : Type) : Type := world -> result A * world.

Definition ret {A} (a : A) : M A := fun w => (Ok a, w).

Definition raise {A} (e : exn) : M A := fun w => (Raise e, w).

Definition bind {A B} (m : M A) (k : A -> M B) : M B :=
  fun w =>
    match m w with
    | (Ok a, w') => k a w'
    | (Raise e, w') => (Raise e, w')
    end.

Notation "x <- m ;; k" := (bind m (fun x => k))
  (at level 61, m at next level, right associativity).
Notation "m ;;; k" := (bind m (fun _ => k))
  (at level 61, right associativity).

Definition get_self : M manager := fun w => (Ok (self w), w).

Definition set_self (s : manager) : M unit :=
  fun w => (Ok tt, {| self := s; rnd := rnd w |}).

(** [random.random()]. *)
Definition random_random : M Q :=
  fun w =>
    let g := rnd w in
    (Ok (floats g (used g)),
     {| self := self w;
        rnd := {| floats := floats g; picks := picks g; used := S (used g) |} |}).

(** [random.choice(seq)]. *)
Definition random_choice (seq : list string) : M string :=
  fun w =>
    let g := rnd w in
    match seq with
    | [] => (Raise IndexError, w)
    | x :: _ =>
        (Ok (nth (Nat.modulo (picks g (used g)) (List.length seq)) seq x),
         {| self := self w;
            rnd := {| floats := floats g; picks := picks g; used := S (used g) |} |})
    end.

(** Python's [<] and [<=] on floats. *)
Definition Qltb (x y : Q) : bool := negb (Qle_bool y x).
Definition Qleb (x y : Q) : bool := Qle_bool x y.

(** *** Dictionaries from class names to weights

    A [dict] keeps its items in insertion order, which is the order
    [items()] and iteration over the keys follow. *)
Definition dict : Type := list (string * Q).

Definition keys (d : dict) : list string := map fst d.
Definition values (d : dict) : list Q := map snd d.

(** [d[k]] as an expression. *)
Fixpoint getitem (k : string) (d : dict) : option Q :=
  match d with
  | [] => None
  | (k', v) :: d' => if String.eqb k' k then Some v else getitem k d'
  end.

(** [d[k] = v]. *)
Fixpoint setitem (k : string) (v : Q) (d : dict) : dict :=
  match d with
  | [] => [(k, v)]
  | (k', v') :: d' =>
      if String.eqb k' k then (k', v) :: d' else (k', v') :: setitem k v d'
  end.

(** [d[k] *= f]. *)
Definition mul_item (k : string) (f : Q) (d : dict) : M dict :=
  match getitem k d with
  | None => raise KeyError
  | Some v => ret (setitem k (v * f) d)
  end.

(** [x in l] for a list of strings. *)
Definition mem (x : string) (l : list string) : bool :=
  existsb (String.eqb x) l.

(** [l.remove(x)]: drops the first [x], raises [ValueError] without one. *)
Fixpoint list_remove (x : string) (l : list string) : option (list string) :=
  match l with
  | [] => None
  | y :: l' =>
      if String.eqb y x then Some l'
      else match list_remove x l' with
           | Some r => Some (y :: r)
           | None => None
           end
  end.

(** [sum(l)]. *)
Definition sum (l : list Q) : Q := fold_left Qplus l 0.

(** [sub in s] for strings. *)
Fixpoint contains (sub s : str) : bool :=
  startswith s sub ||
  match s with
  | [] => false
  | _ :: s' => contains sub s'
  end.

(** [s.lower()] on the letters A..Z.  The accented capitals of the code
    points 192..222, which Python also lowers, become characters outside
    the ASCII range, so they never change whether one of the
    [command_indicators] occurs in the lowered text. *)
Definition lower_char (c : ascii) : ascii :=
  let n := nat_of_ascii c in
  if ((65 <=? n) && (n <=? 90))%nat then ascii_of_nat (n + 32) else c.

Definition lower (s : str) : str := map lower_char s.

(** *** Configuration: the names of [config.py] the manager reads *)
Record config : Type := MkConfig {
  DYNAMIC_MESSAGE_LENGTH_ENABLED : bool;
  EXTREMELY_SHORT_RESPONSE_PROBABILITY : Q;
  SLIGHTLY_SHORT_RESPONSE_PROBABILITY : Q;
  MEDIUM_RESPONSE_PROBABILITY : Q;
  SLIGHTLY_LONG_RESPONSE_PROBABILITY : Q;
  LONG_RESPONSE_PROBABILITY : Q;
  RESPONSE_LENGTH_RANDOMNESS : Q
}.

(** The values [config.py] takes when the environment sets none. *)
Definition default_config : config :=
  {| DYNAMIC_MESSAGE_LENGTH_ENABLED := true;
     EXTREMELY_SHORT_RESPONSE_PROBABILITY := 0.15;
     SLIGHTLY_SHORT_RESPONSE_PROBABILITY := 0.20;
     MEDIUM_RESPONSE_PROBABILITY := 0.25;
     SLIGHTLY_LONG_RESPONSE_PROBABILITY := 0.20;
     LONG_RESPONSE_PROBABILITY := 0.20;
     RESPONSE_LENGTH_RANDOMNESS := 0.9 |}.

(** The argument [context]: what [context.get("is_first_message", False)]
    and [context.get("message_count", 0)] find in it.  [None] stands for
    [None] and for the empty dict, both of which fail [if context:]. *)
Record context : Type := MkContext {
  is_first_message : bool;
  message_count : Z
}.

(** The five classes, in the order the dict of [get_response_type] is
    built. *)
Definition response_types : list string :=
  ["extremely_short"; "slightly_short"; "medium"; "slightly_long"; "long"].

Definition base_probabilities (cfg : config) : dict :=
  [ ("extremely_short", EXTREMELY_SHORT_RESPONSE_PROBABILITY cfg);
    ("slightly_short", SLIGHTLY_SHORT_RESPONSE_PROBABILITY cfg);
    ("medium", MEDIUM_RESPONSE_PROBABILITY cfg);
    ("slightly_long", SLIGHTLY_LONG_RESPONSE_PROBABILITY cfg);
    ("long", LONG_RESPONSE_PROBABILITY cfg) ].

Definition command_indicators : list str :=
  map lit ["please"; "can you"; "could you"; "would you"; "tell me";
           "show me"; "help me"].

Definition _adjust_probabilities_for_content
    (probabilities : dict) (message_content : str) : M dict :=
  p <- (if (len message_content <? 50)%Z then
          p <- mul_item "extremely_short" 1.5 probabilities ;;
          p <- mul_item "slightly_short" 1.3 p ;;
          mul_item "long" 0.7 p
        else if (200 <? len message_content)%Z then
          p <- mul_item "slightly_long" 1.3 probabilities ;;
          p <- mul_item "long" 1.5 p ;;
          mul_item "extremely_short" 0.7 p
        else ret probabilities) ;;
  p <- (if contains (lit "?") message_content then
          p <- mul_item "medium" 1.3 p ;;
          mul_item "slightly_long" 1.2 p
        else ret p) ;;
  if existsb (fun indicator => contains indicator (lower message_content))
       command_indicators
  then
    p <- mul_item "extremely_short" 1.2 p ;;
    mul_item "slightly_short" 1.1 p
  else ret p.

Definition _adjust_probabilities_for_context
    (probabilities : dict) (ctx : context) : M dict :=
  p <- (if is_first_message ctx then
          p <- mul_item "medium" 1.5 probabilities ;;
          p <- mul_item "slightly_long" 1.3 p ;;
          mul_item "extremely_short" 0.5 p
        else ret probabilities) ;;
  if (5 <? message_count ctx)%Z then
    p <- mul_item "extremely_short" 1.2 p ;;
    mul_item "long" 1.2 p
  else ret p.

(** [min(0.3, 0.8 ** consecutive_same_type_count)].  Over the rationals
    the power is never zero, while the double of the code underflows to
    [0.0] from a count of 3340; what is stated of this factor below is
    its cap, its order, its values and that it is not negative. *)
Definition reduction_factor (count : Z) : Q := Qmin 0.3 (0.8 ^ count).

(** Truth value of [self.last_response_type]: neither [None] nor [""]. *)
Definition truthy_type (t : option string) : bool :=
  match t with
  | None => false
  | Some s => negb (String.eqb s "")
  end.

(** The part of [_adjust_probabilities_for_variety] under
    [if ... random.random() < 0.8]. *)
Definition push_away (last : string) (probabilities : dict) : M dict :=
  if mem last ["extremely_short"; "slightly_short"] then
    p <- mul_item "slightly_long" 3.0 probabilities ;;
    p <- mul_item "long" 3.0 p ;;
    mul_item "medium" 2.0 p
  else if String.eqb last "medium" then
    p <- mul_item "extremely_short" 2.5 probabilities ;;
    mul_item "long" 2.5 p
  else if mem last ["slightly_long"; "long"] then
    p <- mul_item "extremely_short" 3.0 probabilities ;;
    mul_item "slightly_short" 3.0 p
  else ret probabilities.

Definition _adjust_probabilities_for_variety (probabilities : dict) : M dict :=
  s <- get_self ;;
  if (0 <? consecutive_same_type_count s)%Z
     && truthy_type (last_response_type s)
  then
    match last_response_type s with
    | None => raise KeyError
    | Some last =>
        p <- mul_item last (reduction_factor (consecutive_same_type_count s))
               probabilities ;;
        force <- (if (1 <=? consecutive_same_type_count s)%Z
                  then u <- random_random ;; ret (Qltb u 0.8)
                  else ret false) ;;
        p <- (if force then push_away last p else ret p) ;;
        u <- random_random ;;
        if Qltb u 0.2 then
          match list_remove last (keys p) with
          | None => raise ValueError
          | Some others =>
              random_type <- random_choice others ;;
              mul_item random_type 4.0 p
          end
        else ret p
    end
  else ret probabilities.

(** The loop [for key in probabilities] of [_apply_randomness]. *)
Fixpoint randomness_loop (randomness : Q) (ks : list string)
    (probabilities : dict) : M dict :=
  match ks with
  | [] => ret probabilities
  | key :: ks' =>
      u <- random_random ;;
      p <- mul_item key (1.0 + randomness * (u * 2 - 1)) probabilities ;;
      randomness_loop randomness ks' p
  end.

Definition _apply_randomness (cfg : config) (probabilities : dict) : M dict :=
  randomness_loop (RESPONSE_LENGTH_RANDOMNESS cfg) (keys probabilities)
    probabilities.

(** The running sums [cumulative_probs] of [_select_response_type]. *)
Fixpoint cumulate (cumulative_prob : Q) (items : dict) : dict :=
  match items with
  | [] => []
  | (item, prob) :: rest =>
      (item, cumulative_prob + prob) :: cumulate (cumulative_prob + prob) rest
  end.

(** The second loop of [_select_response_type] with its fallback. *)
Fixpoint first_reached (rand_val : Q) (cumulative_probs : dict) : string :=
  match cumulative_probs with
  | [] => "medium"
  | (item, cum_prob) :: rest =>
      if Qleb rand_val cum_prob then item else first_reached rand_val rest
  end.

Definition _select_response_type (probabilities : dict) : M string :=
  let cumulative_probs := cumulate 0 probabilities in
  rand_val <- random_random ;;
  ret (first_reached rand_val cumulative_probs).

(** [{k: v/total for k, v in probabilities.items()}]: the first division
    raises when [total] is zero.  Over the rationals the weights
    returned add up to 1 exactly; in the doubles of the code they can
    fall short of it by a rounding error, the case the fallback of
    [_select_response_type] is there for.  Nothing below depends on the
    value of that sum. *)
Definition normalize (probabilities : dict) (total : Q) : M dict :=
  match probabilities with
  | [] => ret []
  | _ :: _ =>
      if Qeq_bool total 0 then raise ZeroDivisionError
      else ret (map (fun kv => (fst kv, snd kv / total)) probabilities)
  end.

(** Lines 33 to 53 of [get_response_type]: the dict built from the
    configuration, after the four adjustments. *)
Definition adjusted_probabilities (cfg : config) (message_content : str)
    (ctx : option context) : M dict :=
  let probabilities := base_probabilities cfg in
  p <- _adjust_probabilities_for_content probabilities message_content ;;
  p <- (match ctx with
        | Some c => _adjust_probabilities_for_context p c
        | None => ret p
        end) ;;
  p <- _adjust_probabilities_for_variety p ;;
  _apply_randomness cfg p.

Definition option_string_eqb (a b : option string) : bool :=
  match a, b with
  | Some x, Some y => String.eqb x y
  | None, None => true
  | _, _ => false
  end.

(** Lines 62 to 67: "Update tracking variables". *)
Definition update_tracking (response_type : string) (s : manager) : manager :=
  if option_string_eqb (Some response_type) (last_response_type s)
  then {| last_response_type := last_response_type s;
          consecutive_same_type_count := (consecutive_same_type_count s + 1)%Z |}
  else {| last_response_type := Some response_type;
          consecutive_same_type_count := 0%Z |}.

Definition get_response_type (cfg : config) (message_content : str)
    (ctx : option context) : M string :=
  if negb (DYNAMIC_MESSAGE_LENGTH_ENABLED cfg) then ret "medium"
  else
    probabilities <- adjusted_probabilities cfg message_content ctx ;;
    let total := sum (values probabilities) in
    normalized_probabilities <- normalize probabilities total ;;
    response_type <- _select_response_type normalized_probabilities ;;
    s <- get_self ;;
    set_self (update_tracking response_type s) ;;;
    ret response_type.

(** A conversation: one call of [get_response_type] per turn, on the
    world the previous turn left.  An exception ends the turn, not the
    conversation. *)
Fixpoint run_turns (cfg : config) (turns : list (str * option context))
    (w : world) : list (result string) * world :=
  match turns with
  | [] => ([], w)
  | (message_content, ctx) :: rest =>
      let '(r, w1) := get_response_type cfg message_content ctx w in
      let '(rs, w2) := run_turns cfg rest w1 in
      (r :: rs, w2)
  end.

(** The states of the manager a conversation can reach from [init]. *)
Inductive reachable (cfg : config) : world -> Prop :=
| reach_init : forall g, reachable cfg {| self := init; rnd := g |}
| reach_turn : forall w message_content ctx,
    reachable cfg w ->
    reachable cfg (snd (get_response_type cfg message_content ctx w)).

(** The invariant of the manager's state. *)
Definition valid_type (t : option string) : Prop :=
  match t with
  | None => True
  | Some s => In s response_types
  end.

Definition valid_state (s : manager) : Prop :=
  valid_type (last_response_type s) /\ (0 <= consecutive_same_type_count s)%Z.

(** A random source whose [random.random()] stays in [0, 1). *)
Definition unit_interval (g : rng) : Prop :=
  forall i, 0 <= floats g i /\ floats g i < 1.

(** Sample sources: a constant one, and one read from a list. *)
Definition constant_rng (u : Q) (pick : nat) : rng :=
  {| floats := fun _ => u; picks := fun _ => pick; used := 0 |}.

Definition list_rng (us : list Q) : rng :=
  {| floats := fun i => nth i us 0; picks := fun _ => O; used := 0 |}.

End Selector.

(** ** Vocabulary of the segmenter's properties *)

Module SegmenterSpec.
Import PyStr Segmenter.

(** A string without a space and without a newline: a word that the
    segmenter cannot cut further. *)
Definition atomic (c : str) : Prop := ~ In sp c /\ ~ In nl c.

Definition bounded (max_length : Z) (c : str) : Prop :=
  (len c <= max_length)%Z \/ ((max_length < len c)%Z /\ atomic c).

Definition acc_bounded (max_length : Z) (a : acc) : Prop :=
  Forall (bounded max_length) (fst a) /\ bounded max_length (snd a).

(** The text an accumulator holds: the chunks, then the running chunk. *)
Definition flat (a : acc) : str := concat (fst a) ++ snd a.

End SegmenterSpec.

(** ** Vocabulary of the selector's properties *)

Module SelectorSpec.
Import PyStr Selector.

Local Open Scope Q_scope.

(** What a call leaves alone when it only draws random numbers: the
    manager's attributes and the values the source will produce. *)
Definition frame (w w' : world) : Prop :=
  self w' = self w /\
  floats (rnd w') = floats (rnd w) /\
  picks (rnd w') = picks (rnd w).

(** [returns m w post]: from [w], [m] returns normally a value that
    satisfies [post], and leaves a world in the frame of [w]. *)
Definition returns {A : Type} (m : M A) (w : world) (post : A -> Prop) : Prop :=
  exists a w', m w = (Ok a, w') /\ frame w w' /\ post a.

(** The factors a stage may multiply a weight by. *)
Inductive factors : Type := AnyFactor | NonNegative.

Definition factor_ok (fs : factors) (f : Q) : Prop :=
  match fs with
  | AnyFactor => True
  | NonNegative => 0 <= f
  end.

(** [scaled fs p0 p]: [p] has the keys of [p0] in the same order, and
    each weight of [p] is the weight of [p0] times a factor in [fs]. *)
Definition scaled (fs : factors) (p0 p : dict) : Prop :=
  Forall2 (fun a b => fst b = fst a /\
                      exists f, factor_ok fs f /\ snd b == snd a * f) p0 p.

Definition nonneg (d : dict) : Prop := Forall (fun kv => 0 <= snd kv) d.

(** The multiplier [_apply_randomness] draws at position [i] of the
    source. *)
Definition random_adjustment (cfg : config) (g : rng) (i : nat) : Q :=
  1.0 + RESPONSE_LENGTH_RANDOMNESS cfg * (floats g i * 2 - 1).

(** Base weights as section 6 of the specification wants them. *)
Definition nonneg_config (cfg : config) : Prop :=
  0 <= EXTREMELY_SHORT_RESPONSE_PROBABILITY cfg /\
  0 <= SLIGHTLY_SHORT_RESPONSE_PROBABILITY cfg /\
  0 <= MEDIUM_RESPONSE_PROBABILITY cfg /\
  0 <= SLIGHTLY_LONG_RESPONSE_PROBABILITY cfg /\
  0 <= LONG_RESPONSE_PROBABILITY cfg.

(** No floor: a weight that is zero before a stage is zero after it. *)
Definition zeros_stay (p p' : dict) : Prop :=
  Forall2 (fun a b => snd a == 0 -> snd b == 0) p p'.

(** A stage, run on non-negative weights from a valid state with draws
    in [0, 1), returns; it keeps the keys, leaves every weight
    non-negative and every zero weight zero. *)
Definition keeps_nonneg (stage : dict -> M dict) : Prop :=
  forall p w,
    keys p = response_types -> nonneg p ->
    valid_state (self w) -> unit_interval (rnd w) ->
    returns (stage p) w
      (fun p' => keys p' = response_types /\ nonneg p' /\ zeros_stay p p').

(** What [get_response_type] divides by, and what it samples from. *)
Definition total (p : dict) : Q := sum (values p).

Definition normalized (p : dict) : dict :=
  map (fun kv => (fst kv, snd kv / total p)) p.

(** The world after one more draw. *)
Definition drawn (w : world) : world :=
  {| self := self w;
     rnd := {| floats := floats (rnd w); picks := picks (rnd w);
               used := S (used (rnd w)) |} |}.

(** The class selected from the adjusted weights [p] in the world [w]. *)
Definition selected (p : dict) (w : world) : string :=
  first_reached (floats (rnd w) (used (rnd w))) (cumulate 0 (normalized p)).

(** Sample configurations and worlds. *)
Definition zero_config : config :=
  {| DYNAMIC_MESSAGE_LENGTH_ENABLED := true;
     EXTREMELY_SHORT_RESPONSE_PROBABILITY := 0;
     SLIGHTLY_SHORT_RESPONSE_PROBABILITY := 0;
     MEDIUM_RESPONSE_PROBABILITY := 0;
     SLIGHTLY_LONG_RESPONSE_PROBABILITY := 0;
     LONG_RESPONSE_PROBABILITY := 0;
     RESPONSE_LENGTH_RANDOMNESS := 0.9 |}.

Definition full_randomness_config : config :=
  {| DYNAMIC_MESSAGE_LENGTH_ENABLED := true;
     EXTREMELY_SHORT_RESPONSE_PROBABILITY := 0.15;
     SLIGHTLY_SHORT_RESPONSE_PROBABILITY := 0.20;
     MEDIUM_RESPONSE_PROBABILITY := 0.25;
     SLIGHTLY_LONG_RESPONSE_PROBABILITY := 0.20;
     LONG_RESPONSE_PROBABILITY := 0.20;
     RESPONSE_LENGTH_RANDOMNESS := 1 |}.

Definition disabled_config : config :=
  {| DYNAMIC_MESSAGE_LENGTH_ENABLED := false;
     EXTREMELY_SHORT_RESPONSE_PROBABILITY := 0.15;
     SLIGHTLY_SHORT_RESPONSE_PROBABILITY := 0.20;
     MEDIUM_RESPONSE_PROBABILITY := 0.25;
     SLIGHTLY_LONG_RESPONSE_PROBABILITY := 0.20;
     LONG_RESPONSE_PROBABILITY := 0.20;
     RESPONSE_LENGTH_RANDOMNESS := 0.9 |}.

(** A fresh manager with a source that always draws [u]. *)
Definition fresh (u : Q) : world :=
  {| self := init; rnd := constant_rng u 0 |}.

End SelectorSpec.

(** ** Words of a text *)

Module Words.
Import PyStr Segmenter.

(** The two characters the segmenter cuts at and joins with. *)
Definition is_sep (c : ascii) : bool := Ascii.eqb c sp || Ascii.eqb c nl.

Definition emit (w : str) : list str :=
  match w with
  | [] => []
  | _ :: _ => [w]
  end.

(** [scan s]: the characters of [s] before its first separator, and the
    words that follow that separator. *)
Fixpoint scan (s : str) : str * list str :=
  match s with
  | [] => ([], [])
  | c :: s' =>
      let '(w, ts) := scan s' in
      if is_sep c then ([], emit w ++ ts) else (c :: w, ts)
  end.

(** The words of [s]: its maximal runs of characters other than space
    and newline, in order. *)
Definition words (s : str) : list str :=
  let '(w, ts) := scan s in emit w ++ ts.

(** The units the sentence loop works on: every paragraph cut at
    newlines and after each period followed by a space. *)
Definition sentences (text : str) : list str :=
  flat_map (fun paragraph => split [nl] (replace [dot; sp] [dot; nl] paragraph))
    (split [nl; nl] text).

(** The number of characters in a list of strings. *)
Definition total_len (l : list str) : Z :=
  fold_right (fun c n => (len c + n)%Z) 0%Z l.

(** The characters an accumulator holds. *)
Definition acc_len (a : acc) : Z := (total_len (fst a) + len (snd a))%Z.

(** The words an accumulator holds. *)
Definition acc_words (a : acc) : list str :=
  flat_map words (fst a) ++ words (snd a).

(** [scan] of a text, read off the pieces it was cut into. *)
Definition pieces_scan (pieces : list str) : str * list str :=
  match pieces with
  | [] => ([], [])
  | p :: ps => (fst (scan p), snd (scan p) ++ flat_map words ps)
  end.

(** What a loop body may add: the unit, and a separator of [k]
    characters when the running chunk is not empty. *)
Definition adds (k : Z) (step : acc -> str -> acc) : Prop :=
  forall a x,
    (acc_len (step a x) <= acc_len a + len x + k)%Z /\
    (snd a = [] -> (acc_len (step a x) <= acc_len a + len x)%Z).

End Words.

(** ** The prompt fragment of the selector *)

Module Instructions.
Import PyStr Selector.

Local Open Scope string_scope.

Definition fallback_instruction : str :=
  lit "Use a natural, conversational length for your response.".

(** The dict [instructions] of [get_response_length_instructions]. *)
Definition instructions : list (string * str) :=
  [ ("extremely_short",
     lit "Keep your response EXTREMELY SHORT - just a few words or a single short sentence. Be very concise.");
    ("slightly_short",
     lit "Keep your response SLIGHTLY SHORT - use 1-2 concise sentences. Be brief but clear.");
    ("medium",
     lit "Use a MEDIUM-LENGTH response - 2-3 sentences with moderate detail. Balance brevity and informativeness.");
    ("slightly_long",
     lit "Use a SLIGHTLY LONG response - 3-5 sentences with good detail. Provide a thorough answer.");
    ("long",
     lit "Give a LONG, detailed response - 5+ sentences with extensive detail. Be comprehensive and thorough.") ].

(** [d.get(k, default)]. *)
Fixpoint dict_get (k : string) (d : list (string * str)) (default : str) : str :=
  match d with
  | [] => default
  | (k', v) :: d' => if String.eqb k' k then v else dict_get k d' default
  end.

Definition get_response_length_instructions (response_type : string) : str :=
  dict_get response_type instructions fallback_instruction.

(** The f-string returned by [format_response_length_for_prompt]. *)
Definition render (instruction : str) : str :=
  ((nl :: lit "        RESPONSE LENGTH INSTRUCTION:")
   ++ (nl :: lit "        ") ++ instruction
   ++ (nl :: lit "        "))%list.

Definition format_response_length_for_prompt (cfg : config)
    (message_content : str) (ctx : option context) : M str :=
  if negb (DYNAMIC_MESSAGE_LENGTH_ENABLED cfg) then ret []
  else
    response_type <- get_response_type cfg message_content ctx ;;
    let instruction := get_response_length_instructions response_type in
    ret (render instruction).

End Instructions.

(** ** [SelfAwareness.enhance_search_queries] *)

Module SelfAwareness.
Import PyStr Selector.

Definition self_terms : list str :=
  map lit ["you"; "your"; "yourself"; "nyxie"; "bot"; "assistant"; "ai"]%string.

Definition self_suffix : str :=
  lit " (I am Nyxie, a protogen-fox hybrid AI assistant)".

(** [any(term in query.lower() for term in [...])]. *)
Definition about_self (query : str) : bool :=
  existsb (fun term => contains term (lower query)) self_terms.

(** The body of the loop: what is appended to [enhanced_queries]. *)
Definition enhance (query : str) : str :=
  if about_self query then query ++ self_suffix else query.

(** [SELF_AWARENESS_SEARCH_ENABLED] is the flag of [config.py]. *)
Definition enhance_search_queries (SELF_AWARENESS_SEARCH_ENABLED : bool)
    (queries : list str) : list str :=
  if negb SELF_AWARENESS_SEARCH_ENABLED then queries
  else fold_left (fun enhanced_queries query => enhanced_queries ++ [enhance query])
         queries [].

End SelfAwareness.

(** ** [combine_search_results] *)

Module SearchResults.
Import PyStr Selector.

(** A search result: the dict entries ["text"] and ["citations"], each of
    which may be missing. *)
Record search_result (C : Type) : Type := MkResult {
  text : option str;
  citations : option (list C)
}.
Arguments MkResult {C} text citations.
Arguments text {C} s.
Arguments citations {C} s.

(** [s.lstrip()], [s.rstrip()], [s.strip()]. *)
Fixpoint lstrip (s : str) : str :=
  match s with
  | [] => []
  | c :: s' => if isspace c then lstrip s' else s
  end.

Definition rstrip (s : str) : str := rev (lstrip (rev s)).

Definition strip (s : str) : str := rstrip (lstrip s).

(** The loop over [search_results]: the two locals [combined_text] and
    [all_citations]; a missing key raises [KeyError]. *)
Fixpoint combine_loop {C : Type} (search_results : list (search_result C))
    (combined_text : str) (all_citations : list C)
  : result (str * list C) :=
  match search_results with
  | [] => Ok (combined_text, all_citations)
  | r :: rest =>
      match text r, citations r with
      | Some t, Some cs =>
          combine_loop rest (combined_text ++ t ++ [nl; nl])
            (all_citations ++ cs)
      | _, _ => Raise KeyError
      end
  end.

(** The returned dict, as the pair of its ["text"] and ["citations"]. *)
Definition combine_search_results {C : Type}
    (search_results : list (search_result C)) : result (str * list C) :=
  match combine_loop search_results [] [] with
  | Ok (combined_text, all_citations) => Ok (strip combined_text, all_citations)
  | Raise e => Raise e
  end.

(** The results whose two keys are present. *)
Definition complete {C : Type} (r : search_result C) : Prop :=
  text r <> None /\ citations r <> None.

Definition texts {C : Type} (rs : list (search_result C)) : list str :=
  flat_map (fun r => match text r with Some t => [t] | None => [] end) rs.

Definition all_citations_of {C : Type} (rs : list (search_result C)) : list C :=
  flat_map (fun r => match citations r with Some cs => cs | None => [] end) rs.

End SearchResults.

(** ** Vocabulary of the variety and randomness stages *)

Module Stages.
Import PyStr Selector SelectorSpec.

Local Open Scope Q_scope.

(** [scaled_by ok p0 p]: [p] has the keys of [p0] in the same order, and
    the weight under each key [k] is the weight of [p0] times a factor
    [f] with [ok k f]. *)
Definition scaled_by (ok : string -> Q -> Prop) (p0 p : dict) : Prop :=
  Forall2 (fun a b => fst b = fst a /\
                      exists f, ok (fst a) f /\ snd b == snd a * f) p0 p.

(** After the damping of [last]: its weight is left alone, the others
    are only raised. *)
Definition boost_ok (last : string) (k : string) (f : Q) : Prop :=
  if String.eqb k last then f == 1 else 1 <= f.

(** What the variety stage does to each item when the class [last] was
    repeated [count] times. *)
Definition damped (last : string) (count : Z) (p p' : dict) : Prop :=
  Forall2 (fun a b =>
             fst b = fst a /\
             if String.eqb (fst a) last
             then snd b == snd a * reduction_factor count
             else snd a <= snd b) p p'.

(** The weights of [p], each multiplied by the adjustment of its own
    draw, the first item taking draw [i]. *)
Fixpoint adjust_from (cfg : config) (g : rng) (i : nat) (p : dict) : dict :=
  match p with
  | [] => []
  | (k, v) :: rest =>
      (k, v * random_adjustment cfg g i) :: adjust_from cfg g (S i) rest
  end.

(** The world after [n] more draws. *)
Definition advance (n : nat) (w : world) : world :=
  {| self := self w;
     rnd := {| floats := floats (rnd w); picks := picks (rnd w);
               used := (n + used (rnd w))%nat |} |}.

(** A computation that leaves the world as it found it. *)
Definition pure {A : Type} (m : M A) : Prop := forall w, snd (m w) = w.

(** What the damping alone does: the weight of [last] is multiplied by
    [f], the others are kept. *)
Definition damped_only (last : string) (f : Q) (p p' : dict) : Prop :=
  Forall2 (fun a b =>
             fst b = fst a /\
             if String.eqb (fst a) last
             then snd b == snd a * f
             else snd b == snd a) p p'.

(** A manager that selected [last] on its latest [count + 1] turns, with
    a source that always draws [u]. *)
Definition repeated (last : string) (count : Z) (u : Q) : world :=
  {| self := {| last_response_type := Some last;
                consecutive_same_type_count := count |};
     rnd := constant_rng u 0 |}.

End Stages.

Module SegmenterExamples.
Import PyStr Segmenter SegmenterSpec.

Example split_two_paragraphs :
  split [nl; nl] (lit "ab" ++ [nl; nl; nl] ++ lit "c") = [lit "ab"; nl :: lit "c"].
Proof. reflexivity. Qed.

Example split_trailing : split [sp] (lit "a b ") = [lit "a"; lit "b"; []].
Proof. reflexivity. Qed.

Example replace_sentences :
  replace [dot; sp] [dot; nl] (lit "Hi. Yo.  x") = lit "Hi." ++ [nl] ++ lit "Yo." ++ [nl] ++ lit " x".
Proof. reflexivity. Qed.

Example segment_words :
  split_long_message (lit "aa bb cc dd") 5 = [lit "aa bb"; lit "cc dd"].
Proof. vm_compute. reflexivity. Qed.

End SegmenterExamples.

(** ** Properties of the segmenter *)

Module SegmenterProofs.
Import PyStr Segmenter SegmenterSpec.

Lemma fold_left_invariant {A B : Type} (P : A -> Prop) (f : A -> B -> A) :
  forall (l : list B) (a : A),
    P a -> (forall a x, In x l -> P a -> P (f a x)) -> P (fold_left f l a).
Proof.
  induction l as [|x l IH]; intros a Ha Hstep; simpl.
  - exact Ha.
  - apply IH.
    + apply Hstep; [now left | exact Ha].
    + intros a' y Hy. apply Hstep. now right.
Qed.

Lemma len_app (a b : str) : len (a ++ b) = (len a + len b)%Z.
Proof. unfold len. rewrite length_app. lia. Qed.

Lemma len_cons (c : ascii) (a : str) : len (c :: a) = (1 + len a)%Z.
Proof. unfold len. simpl List.length. lia. Qed.

Lemma len_nonneg (a : str) : (0 <= len a)%Z.
Proof. unfold len. lia. Qed.

Lemma truthy_false (s : str) : truthy s = false -> s = [].
Proof. destruct s; [reflexivity | discriminate]. Qed.

(** *** Pieces of [split] *)

Lemma startswith_cut (pre : str) :
  forall s, startswith s pre = true -> s = pre ++ skipn (List.length pre) s.
Proof.
  induction pre as [|p pre IH]; intros s H.
  - reflexivity.
  - destruct s as [|c s]; [discriminate|].
    simpl in H. apply andb_prop in H as [Hc Hs].
    apply Ascii.eqb_eq in Hc. subst c.
    simpl. f_equal. now apply IH.
Qed.

Lemma split_go_nonempty (sep : str) :
  forall s skip, split_go sep s skip <> [].
Proof.
  induction s as [|c s IH]; intros skip; cbn [split_go].
  - congruence.
  - destruct skip; [|apply IH].
    destruct (startswith (c :: s) sep); [congruence|].
    destruct (split_go sep s 0); congruence.
Qed.

(** Every character of a piece is a character of the text. *)
Lemma split_go_chars (sep : str) :
  forall s skip w x, In w (split_go sep s skip) -> In x w -> In x s.
Proof.
  induction s as [|c s IH]; intros skip w x Hw Hx; cbn [split_go In] in Hw.
  - destruct Hw as [<-|[]]. destruct Hx.
  - destruct skip as [|k].
    + destruct (startswith (c :: s) sep).
      * destruct Hw as [<-|Hw]; [destruct Hx|].
        right. eapply IH; eassumption.
      * destruct (split_go sep s 0) as [|p ps] eqn:E.
        -- destruct Hw as [<-|[]]. destruct Hx as [<-|[]]. now left.
        -- destruct Hw as [<-|Hw].
           ++ destruct Hx as [<-|Hx]; [now left|].
              right. apply (IH 0%nat p x); [rewrite E; now left | exact Hx].
           ++ right. apply (IH 0%nat w x); [rewrite E; now right | exact Hx].
    + right. eapply IH; eassumption.
Qed.

(** A piece cut at a one-character separator does not hold it. *)
Lemma split_char_free (c : ascii) :
  forall s w, In w (split [c] s) -> ~ In c w.
Proof.
  unfold split.
  induction s as [|a s IH]; intros w Hw; simpl in Hw.
  - destruct Hw as [<-|[]]. intros [].
  - rewrite andb_true_r in Hw.
    destruct (Ascii.eqb c a) eqn:E.
    + destruct Hw as [<-|Hw]; [intros []|]. now apply IH.
    + apply Ascii.eqb_neq in E.
      destruct (split_go [c] s 0) as [|p ps] eqn:Es.
      * destruct Hw as [<-|[]]. intros [H|[]]. congruence.
      * destruct Hw as [<-|Hw].
        -- intros [H|H]; [congruence|].
           revert H. apply IH. now left.
        -- apply IH. now right.
Qed.

(** *** The size bound *)

Lemma bounded_atomic (max_length : Z) (c : str) :
  atomic c -> bounded max_length c.
Proof.
  intros H. destruct (Z.le_gt_cases (len c) max_length); [now left|now right].
Qed.

Lemma bounded_nil (max_length : Z) : bounded max_length [].
Proof. apply bounded_atomic. split; intros []. Qed.

Lemma Forall_snoc {A : Type} (P : A -> Prop) (l : list A) (x : A) :
  Forall P l -> P x -> Forall P (l ++ [x]).
Proof. intros Hl Hx. apply Forall_app. split; [exact Hl | now constructor]. Qed.

Lemma flush_bounded (max_length : Z) (a : acc) :
  acc_bounded max_length a ->
  acc_bounded max_length (flush a) /\ snd (flush a) = [].
Proof.
  destruct a as [chunks cc]. intros [Hc Hcc]. unfold flush.
  destruct (truthy cc) eqn:E; simpl.
  - split; [split|reflexivity]; [now apply Forall_snoc | apply bounded_nil].
  - apply truthy_false in E. subst cc. now repeat split.
Qed.

Lemma word_step_bounded (max_length : Z) (a : acc) (word : str) :
  atomic word -> acc_bounded max_length a ->
  acc_bounded max_length (word_step max_length a word).
Proof.
  destruct a as [chunks cc]. intros Hw [Hc Hcc]. unfold word_step.
  destruct (Z.ltb_spec max_length (len cc + len word + 1)) as [Hlt|Hge].
  - split; simpl; [now apply Forall_snoc | now apply bounded_atomic].
  - destruct (truthy cc); split; simpl; try exact Hc; left.
    + rewrite len_app, len_cons. lia.
    + pose proof (len_nonneg cc). lia.
Qed.

Lemma sentence_step_bounded (max_length : Z) (a : acc) (sentence : str) :
  ~ In nl sentence -> acc_bounded max_length a ->
  acc_bounded max_length (sentence_step max_length a sentence).
Proof.
  destruct a as [chunks cc]. intros Hnl Ha. unfold sentence_step.
  destruct (Z.ltb_spec max_length (len cc + len sentence + 1)) as [Hlt|Hge].
  - destruct (flush_bounded max_length (chunks, cc) Ha) as [Hf _].
    destruct (Z.ltb_spec max_length (len sentence)) as [Hbig|Hfit].
    + apply (fold_left_invariant (acc_bounded max_length)); [exact Hf|].
      intros a' w Hin Ha'. apply word_step_bounded; [|exact Ha'].
      split.
      * exact (split_char_free sp sentence w Hin).
      * intros Hx. apply Hnl.
        apply (split_go_chars [sp] sentence 0%nat w nl Hin Hx).
    + split; [apply Hf | now left].
  - destruct Ha as [Hc Hcc].
    destruct (truthy cc); split; simpl; try exact Hc; left.
    + rewrite len_app, len_cons. lia.
    + pose proof (len_nonneg cc). lia.
Qed.

Lemma paragraph_step_bounded (max_length : Z) (a : acc) (paragraph : str) :
  acc_bounded max_length a ->
  acc_bounded max_length (paragraph_step max_length a paragraph).
Proof.
  destruct a as [chunks cc]. intros Ha. unfold paragraph_step.
  destruct (Z.ltb_spec max_length (len cc + len paragraph + 2)) as [Hlt|Hge].
  - destruct (flush_bounded max_length (chunks, cc) Ha) as [Hf _].
    destruct (Z.ltb_spec max_length (len paragraph)) as [Hbig|Hfit].
    + apply (fold_left_invariant (acc_bounded max_length)); [exact Hf|].
      intros a' s Hin Ha'. apply sentence_step_bounded; [|exact Ha'].
      exact (split_char_free nl _ s Hin).
    + split; [apply Hf | now left].
  - destruct Ha as [Hc Hcc].
    destruct (truthy cc); split; simpl; try exact Hc; left.
    + rewrite len_app, !len_cons. lia.
    + pose proof (len_nonneg cc). lia.
Qed.

(** *** What the chunks hold *)

Lemma content_app (a b : str) : content (a ++ b) = content a ++ content b.
Proof. apply filter_app. Qed.

Lemma content_concat (l : list str) :
  content (concat l) = concat (map content l).
Proof.
  induction l as [|x l IH]; simpl; [reflexivity|].
  now rewrite content_app, IH.
Qed.

Lemma content_sp (s : str) : content (sp :: s) = content s.
Proof. reflexivity. Qed.

Lemma content_nl (s : str) : content (nl :: s) = content s.
Proof. reflexivity. Qed.

(** Cutting at a separator made of whitespace loses only whitespace. *)
Lemma split_go_content (sep : str) :
  sep <> [] -> content sep = [] ->
  forall s skip,
    content (concat (split_go sep s skip)) = content (skipn skip s).
Proof.
  intros Hne Hsep.
  induction s as [|c s IH]; intros skip; cbn [split_go].
  - now rewrite skipn_nil.
  - destruct skip as [|k]; [|apply IH].
    destruct (startswith (c :: s) sep) eqn:E.
    + apply startswith_cut in E.
      destruct sep as [|p sep']; [contradiction|].
      cbn [concat app]. rewrite IH, E. cbn [skipn].
      rewrite content_app, Hsep. cbn [List.length skipn app Nat.sub].
      now rewrite Nat.sub_0_r.
    + cbn [skipn]. specialize (IH 0%nat). cbn [skipn] in IH.
      pose proof (split_go_nonempty sep s 0) as Hq.
      destruct (split_go sep s 0) as [|q qs]; [congruence|].
      cbn [concat app] in *.
      change (content (c :: q ++ concat qs) = content (c :: s)).
      unfold content in *. cbn [filter]. now rewrite IH.
Qed.

Lemma split_content (sep s : str) :
  sep <> [] -> content sep = [] -> content (concat (split sep s)) = content s.
Proof. intros Hne Hsep. unfold split. now rewrite split_go_content. Qed.

(** Replacing [old] by a [new] with the same content keeps the content. *)
Lemma replace_go_content (old new : str) :
  old <> [] -> content old = content new ->
  forall s skip, content (replace_go old new s skip) = content (skipn skip s).
Proof.
  intros Hne Hon.
  induction s as [|c s IH]; intros skip; cbn [replace_go].
  - now rewrite skipn_nil.
  - destruct skip as [|k]; [|apply IH].
    destruct (startswith (c :: s) old) eqn:E.
    + apply startswith_cut in E.
      destruct old as [|p old']; [contradiction|].
      rewrite content_app, IH, E. cbn [skipn].
      rewrite content_app, Hon. cbn [List.length skipn app Nat.sub].
      now rewrite Nat.sub_0_r.
    + cbn [skipn]. specialize (IH 0%nat). cbn [skipn] in IH.
      unfold content in *. cbn [filter]. now rewrite IH.
Qed.

Lemma replace_content (old new s : str) :
  old <> [] -> content old = content new ->
  content (replace old new s) = content s.
Proof. intros Hne Hon. unfold replace. now rewrite replace_go_content. Qed.

Lemma join_content (sep : str) :
  content sep = [] ->
  forall l, content (join sep l) = content (concat l).
Proof.
  intros Hsep. induction l as [|x l IH]; [reflexivity|].
  destruct l as [|y l].
  - simpl. now rewrite app_nil_r.
  - change (join sep (x :: y :: l)) with (x ++ sep ++ join sep (y :: l)).
    change (concat (x :: y :: l)) with (x ++ concat (y :: l)).
    now rewrite !content_app, Hsep, IH.
Qed.

Lemma flat_snoc (chunks : list str) (cc s : str) :
  flat (chunks ++ [cc], s) = flat (chunks, cc) ++ s.
Proof.
  unfold flat. simpl. rewrite concat_app. simpl.
  now rewrite app_nil_r.
Qed.

Lemma flush_flat (a : acc) : flat (flush a) = flat a.
Proof.
  destruct a as [chunks cc]. unfold flush.
  destruct (truthy cc); [|reflexivity].
  rewrite flat_snoc. apply app_nil_r.
Qed.

Lemma fold_left_content (step : acc -> str -> acc) :
  forall (l : list str) (a : acc),
    (forall a x, content (flat (step a x)) = content (flat a) ++ content x) ->
    content (flat (fold_left step l a)) = content (flat a) ++ content (concat l).
Proof.
  induction l as [|x l IH]; intros a Hstep; simpl.
  - now rewrite app_nil_r.
  - rewrite IH by exact Hstep.
    now rewrite Hstep, content_app, app_assoc.
Qed.

Lemma word_step_content (max_length : Z) (a : acc) (word : str) :
  content (flat (word_step max_length a word))
  = content (flat a) ++ content word.
Proof.
  destruct a as [chunks cc]. unfold word_step.
  destruct (max_length <? len cc + len word + 1)%Z.
  - now rewrite flat_snoc, content_app.
  - destruct (truthy cc) eqn:E.
    + unfold flat. simpl. now rewrite !content_app, content_sp, app_assoc.
    + apply truthy_false in E. subst cc. unfold flat. simpl.
      now rewrite !content_app, app_nil_r.
Qed.

Lemma sentence_step_content (max_length : Z) (a : acc) (sentence : str) :
  content (flat (sentence_step max_length a sentence))
  = content (flat a) ++ content sentence.
Proof.
  destruct a as [chunks cc]. unfold sentence_step.
  destruct (max_length <? len cc + len sentence + 1)%Z.
  - destruct (max_length <? len sentence)%Z.
    + rewrite fold_left_content by apply word_step_content.
      rewrite flush_flat, split_content; [reflexivity|discriminate|reflexivity].
    + pose proof (flush_flat (chunks, cc)) as Hf.
      unfold flush in *. destruct (truthy cc) eqn:E.
      * simpl. rewrite flat_snoc. now rewrite content_app.
      * apply truthy_false in E. subst cc. unfold flat. simpl.
        now rewrite !content_app, app_nil_r.
  - destruct (truthy cc) eqn:E.
    + unfold flat. simpl. now rewrite !content_app, content_sp, app_assoc.
    + apply truthy_false in E. subst cc. unfold flat. simpl.
      now rewrite !content_app, app_nil_r.
Qed.

Lemma paragraph_step_content (max_length : Z) (a : acc) (paragraph : str) :
  content (flat (paragraph_step max_length a paragraph))
  = content (flat a) ++ content paragraph.
Proof.
  destruct a as [chunks cc]. unfold paragraph_step.
  destruct (max_length <? len cc + len paragraph + 2)%Z.
  - destruct (max_length <? len paragraph)%Z.
    + rewrite fold_left_content by apply sentence_step_content.
      rewrite flush_flat, split_content; [|discriminate|reflexivity].
      rewrite replace_content; [reflexivity|discriminate|reflexivity].
    + unfold flush. destruct (truthy cc) eqn:E.
      * simpl. rewrite flat_snoc. now rewrite content_app.
      * apply truthy_false in E. subst cc. unfold flat. simpl.
        now rewrite !content_app, app_nil_r.
  - destruct (truthy cc) eqn:E.
    + unfold flat. simpl.
      now rewrite !content_app, !content_nl, app_assoc.
    + apply truthy_false in E. subst cc. unfold flat. simpl.
      now rewrite !content_app, app_nil_r.
Qed.

Lemma split_long_message_flat (text : str) (max_length : Z) :
  content (concat (split_long_message text max_length)) = content text.
Proof.
  unfold split_long_message.
  destruct (len text <=? max_length)%Z.
  - simpl. now rewrite app_nil_r.
  - pose proof (fold_left_content (paragraph_step max_length)
                  (split [nl; nl] text) ([], [])
                  (paragraph_step_content max_length)) as H.
    destruct (fold_left (paragraph_step max_length) (split [nl; nl] text)
                ([], [])) as [chunks cc].
    rewrite split_content in H; [|discriminate|reflexivity].
    simpl in H.
    destruct (truthy cc) eqn:E.
    + rewrite concat_app. simpl. rewrite app_nil_r. exact H.
    + apply truthy_false in E. subst cc. unfold flat in H. simpl in H.
      now rewrite app_nil_r in H.
Qed.

(** The word loop on an empty running chunk: a word that does not fit
    makes the loop append the empty chunk. *)
Lemma word_step_empty_accumulator (max_length : Z) (chunks : list str)
    (word : str) :
  (max_length < len word + 1)%Z ->
  word_step max_length (chunks, []) word = (chunks ++ [[]], word).
Proof.
  intros H. unfold word_step.
  change (len []) with 0%Z. rewrite Z.add_0_l.
  now apply Z.ltb_lt in H as ->.
Qed.

(** *** The claims on the segmenter *)

(** C1.  The claim: every chunk [split_long_message] returns is a
    non-empty string, and a word that does not fit an empty accumulator
    becomes its own chunk.  The code: the word loop appends the running
    chunk without the emptiness test that the paragraph and the sentence
    loops make, so for the five-letter text below and a limit of 4 the
    first chunk returned is the empty string. *)
Theorem word_level_emits_empty_chunk :
  split_long_message (lit "AAAAA") 4 = [[]; lit "AAAAA"].
Proof. vm_compute. reflexivity. Qed.

(** C2.  The claim: [split_long_message("A"*5000, 4000)] returns exactly
    one chunk, the input.  The code returns two chunks: the empty string,
    then the input. *)
Theorem scenario_c_returns_two_chunks :
  split_long_message (repeat "A"%char 5000) 4000
  = [[]; repeat "A"%char 5000].
Proof. vm_compute. reflexivity. Qed.

(** C5.  For every text and every positive limit, each chunk returned is
    at most [max_length] long, or it is longer and is a single word:
    it holds no space and no newline. *)
Theorem chunk_size_bound (text : str) (max_length : Z) :
  (0 < max_length)%Z ->
  Forall (bounded max_length) (split_long_message text max_length).
Proof.
  intros _. unfold split_long_message.
  destruct (Z.leb_spec (len text) max_length) as [Hle|Hgt].
  - constructor; [now left | constructor].
  - assert (H : acc_bounded max_length
                  (fold_left (paragraph_step max_length)
                     (split [nl; nl] text) ([], []))).
    { apply (fold_left_invariant (acc_bounded max_length)).
      - split; [constructor | apply bounded_nil].
      - intros a p _ Ha. now apply paragraph_step_bounded. }
    destruct (fold_left (paragraph_step max_length) (split [nl; nl] text)
                ([], [])) as [chunks cc].
    destruct H as [Hc Hcc]. simpl in Hc, Hcc.
    destruct (truthy cc); [now apply Forall_snoc | exact Hc].
Qed.

Lemma chunk_size_bound_witness :
  (0 < 5)%Z /\
  Forall (bounded 5) (split_long_message (lit "aaaaaaaa bb cc. dd") 5).
Proof.
  split; [reflexivity|].
  apply (chunk_size_bound (lit "aaaaaaaa bb cc. dd") 5). reflexivity.
Defined.

(** C6.  For every text and every positive limit, the non-whitespace
    characters of the chunks, read in order, are those of the text; this
    also holds when the chunks are joined by any separator made of
    whitespace. *)
Theorem chunks_keep_content (text : str) (max_length : Z) :
  (0 < max_length)%Z ->
  content (concat (split_long_message text max_length)) = content text /\
  forall sep, content sep = [] ->
    content (join sep (split_long_message text max_length)) = content text.
Proof.
  intros _. split.
  - apply split_long_message_flat.
  - intros sep Hsep. rewrite join_content by exact Hsep.
    apply split_long_message_flat.
Qed.

Lemma chunks_keep_content_witness :
  (0 < 6)%Z /\ content [nl; nl] = [] /\
  content (concat (split_long_message (lit "Hello big world. Bye now") 6))
  = content (lit "Hello big world. Bye now") /\
  content (join [nl; nl] (split_long_message (lit "Hello big world. Bye now") 6))
  = content (lit "Hello big world. Bye now").
Proof.
  destruct (chunks_keep_content (lit "Hello big world. Bye now") 6
              eq_refl) as [H1 H2].
  split; [reflexivity|]. split; [reflexivity|]. split; [exact H1|].
  apply H2. reflexivity.
Defined.

End SegmenterProofs.

(** ** Properties of the selector *)

Module SelectorProofs.
Import PyStr Selector SelectorSpec.

Local Open Scope Q_scope.

(** *** The frame and the rules of [returns] *)

Lemma frame_refl (w : world) : frame w w.
Proof. now repeat split. Qed.

Lemma frame_trans (w1 w2 w3 : world) :
  frame w1 w2 -> frame w2 w3 -> frame w1 w3.
Proof.
  intros (H1 & H2 & H3) (K1 & K2 & K3).
  repeat split; congruence.
Qed.

Lemma returns_ret {A : Type} (a : A) (w : world) (post : A -> Prop) :
  post a -> returns (ret a) w post.
Proof. intros H. exists a, w. split; [reflexivity|]. split; [apply frame_refl|exact H]. Qed.

Lemma returns_bind {A B : Type} (m : M A) (k : A -> M B) (w : world)
    (mid : A -> Prop) (post : B -> Prop) :
  returns m w mid ->
  (forall a w1, frame w w1 -> mid a -> returns (k a) w1 post) ->
  returns (bind m k) w post.
Proof.
  intros (a & w1 & Hm & Hf & Ha) Hk.
  destruct (Hk a w1 Hf Ha) as (b & w2 & Hb & Hf2 & Hpost).
  exists b, w2. unfold bind. rewrite Hm.
  split; [exact Hb|]. split; [eapply frame_trans; eassumption | exact Hpost].
Qed.

Lemma returns_weaken {A : Type} (m : M A) (w : world) (post post' : A -> Prop) :
  returns m w post -> (forall a, post a -> post' a) -> returns m w post'.
Proof.
  intros (a & w1 & Hm & Hf & Ha) H. exists a, w1. auto.
Qed.

Lemma returns_get_self (w : world) :
  returns get_self w (fun s => s = self w).
Proof. exists (self w), w. split; [reflexivity|]. split; [apply frame_refl|reflexivity]. Qed.

Lemma returns_random (w : world) :
  returns random_random w (fun u => exists i, u = floats (rnd w) i).
Proof.
  eexists _, _. split; [reflexivity|]. split.
  - now repeat split.
  - now exists (used (rnd w)).
Qed.

Lemma returns_choice (seq : list string) (w : world) :
  seq <> [] -> returns (random_choice seq) w (fun x => In x seq).
Proof.
  intros Hne. destruct seq as [|x seq]; [contradiction|].
  eexists _, _. split; [reflexivity|]. split.
  - now repeat split.
  - apply nth_In. apply Nat.mod_upper_bound. discriminate.
Qed.

(** *** Dictionaries *)

Lemma factor_ok_one (fs : factors) : factor_ok fs 1.
Proof. destruct fs; simpl; [exact I | discriminate]. Qed.

Lemma factor_ok_mul (fs : factors) (f g : Q) :
  factor_ok fs f -> factor_ok fs g -> factor_ok fs (f * g).
Proof.
  destruct fs; simpl; intros Hf Hg.
  - exact I.
  - now apply Qmult_le_0_compat.
Qed.

Lemma factor_ok_nonneg (fs : factors) (f : Q) : 0 <= f -> factor_ok fs f.
Proof. destruct fs; simpl; intros H; [exact I | exact H]. Qed.

Lemma factor_ok_pos (fs : factors) (f : Q) : 0 < f -> factor_ok fs f.
Proof. intros H. now apply factor_ok_nonneg, Qlt_le_weak. Qed.

Lemma scaled_refl (fs : factors) (p : dict) : scaled fs p p.
Proof.
  induction p as [|kv p IH]; constructor; [|exact IH].
  split; [reflexivity|]. exists 1. split; [apply factor_ok_one|ring].
Qed.

Lemma scaled_trans (fs : factors) (p1 p2 p3 : dict) :
  scaled fs p1 p2 -> scaled fs p2 p3 -> scaled fs p1 p3.
Proof.
  intros H12. revert p3.
  induction H12 as [|a b p1 p2 (Hk & f & Hf & Hv) _ IH]; intros p3 H23;
    inversion H23 as [|b' c p2' p3' (Hk' & g & Hg & Hv') H23']; subst.
  - constructor.
  - constructor; [|now apply IH].
    split; [congruence|].
    exists (f * g). split; [now apply factor_ok_mul|].
    rewrite Hv', Hv. ring.
Qed.

Lemma scaled_keys (fs : factors) (p0 p : dict) :
  scaled fs p0 p -> keys p = keys p0.
Proof.
  induction 1 as [|a b p0 p (Hk & _) _ IH]; simpl; [reflexivity|].
  now rewrite Hk, IH.
Qed.

Lemma scaled_any (fs : factors) (p0 p : dict) :
  scaled fs p0 p -> scaled AnyFactor p0 p.
Proof.
  induction 1 as [|a b p0 p (Hk & f & _ & Hv) _ IH]; constructor; [|exact IH].
  split; [exact Hk|]. exists f. split; [exact I|exact Hv].
Qed.

(** [d[k] *= f] on a dict that holds [k]. *)
Lemma setitem_scaled (fs : factors) (k : string) (f : Q) :
  factor_ok fs f ->
  forall p, In k (keys p) ->
    exists v, getitem k p = Some v /\ scaled fs p (setitem k (v * f) p).
Proof.
  intros Hf. induction p as [|[k' v'] p IH]; intros Hin; [destruct Hin|].
  simpl. destruct (String.eqb k' k) eqn:E.
  - exists v'. split; [reflexivity|]. constructor; [|apply scaled_refl].
    split; [reflexivity|]. exists f. split; [exact Hf|reflexivity].
  - destruct Hin as [Hk|Hin].
    + simpl in Hk. subst k'. rewrite String.eqb_refl in E. discriminate.
    + destruct (IH Hin) as (v & Hg & Hs). exists v. split; [exact Hg|].
      constructor; [|exact Hs].
      split; [reflexivity|]. exists 1. split; [apply factor_ok_one|simpl; ring].
Qed.

Lemma returns_mul_item (fs : factors) (p0 p : dict) (k : string) (f : Q)
    (w : world) :
  scaled fs p0 p -> In k (keys p0) -> factor_ok fs f ->
  returns (mul_item k f p) w (scaled fs p0).
Proof.
  intros Hs Hin Hf.
  rewrite <- (scaled_keys fs p0 p Hs) in Hin.
  destruct (setitem_scaled fs k f Hf p Hin) as (v & Hg & Hs').
  unfold mul_item. rewrite Hg. apply returns_ret.
  eapply scaled_trans; eassumption.
Qed.

(** *** The four adjustment stages *)

Ltac in_keys :=
  match goal with
  | H : keys _ = response_types |- In _ (keys _) =>
      rewrite H; simpl; tauto
  end.

Ltac solve_stage fs p0 :=
  cbv beta;
  lazymatch goal with
  | |- returns (if ?c then _ else _) _ _ =>
      destruct c; solve_stage fs p0
  | |- returns (bind _ _) _ _ =>
      apply (returns_bind _ _ _ (scaled fs p0));
      [ solve_stage fs p0 | intros ? ? ? ?; solve_stage fs p0 ]
  | |- returns (mul_item _ _ _) _ _ =>
      eapply returns_mul_item;
      [ eassumption | in_keys | apply factor_ok_pos; reflexivity ]
  | |- returns (ret _) _ _ =>
      apply returns_ret; assumption
  end.

Lemma content_stage (fs : factors) (p0 p : dict) (message_content : str)
    (w : world) :
  keys p0 = response_types -> scaled fs p0 p ->
  returns (_adjust_probabilities_for_content p message_content) w
    (scaled fs p0).
Proof.
  intros Hk Hs. unfold _adjust_probabilities_for_content.
  solve_stage fs p0.
Qed.

Lemma context_stage (fs : factors) (p0 p : dict) (ctx : context) (w : world) :
  keys p0 = response_types -> scaled fs p0 p ->
  returns (_adjust_probabilities_for_context p ctx) w (scaled fs p0).
Proof.
  intros Hk Hs. unfold _adjust_probabilities_for_context.
  solve_stage fs p0.
Qed.

Lemma push_away_stage (fs : factors) (p0 p : dict) (last : string) (w : world) :
  keys p0 = response_types -> scaled fs p0 p ->
  returns (push_away last p) w (scaled fs p0).
Proof.
  intros Hk Hs. unfold push_away.
  solve_stage fs p0.
Qed.

Lemma reduction_factor_nonneg (count : Z) : 0 <= reduction_factor count.
Proof.
  unfold reduction_factor. apply Q.min_glb; [discriminate|].
  apply Qpower_0_le. discriminate.
Qed.

(** Removing a class from the five leaves four of them. *)
Lemma list_remove_response_type (last : string) :
  In last response_types ->
  exists others, list_remove last response_types = Some others /\
                 others <> [] /\
                 forall x, In x others -> In x response_types.
Proof.
  intros Hin. simpl in Hin.
  repeat (destruct Hin as [<-|Hin];
          [eexists; split; [reflexivity|];
           split; [discriminate | simpl; tauto]|]).
  destruct Hin.
Qed.

Lemma variety_stage (fs : factors) (p0 p : dict) (w : world) :
  keys p0 = response_types -> scaled fs p0 p ->
  valid_type (last_response_type (self w)) ->
  returns (_adjust_probabilities_for_variety p) w (scaled fs p0).
Proof.
  intros Hk Hs Hv. unfold _adjust_probabilities_for_variety.
  apply (returns_bind _ _ _ (fun s => s = self w)); [apply returns_get_self|].
  intros s w1 Hf1 ->.
  destruct ((0 <? consecutive_same_type_count (self w))%Z
            && truthy_type (last_response_type (self w))) eqn:Hcond;
    [|now apply returns_ret].
  destruct (last_response_type (self w)) as [last|].
  2:{ simpl in Hcond. rewrite andb_false_r in Hcond. discriminate. }
  simpl in Hv.
  apply (returns_bind _ _ _ (scaled fs p0)).
  { eapply returns_mul_item;
      [eassumption | now rewrite Hk | apply factor_ok_nonneg, reduction_factor_nonneg]. }
  intros p1 w2 Hf2 Hs1.
  apply (returns_bind _ _ _ (fun _ : bool => True)).
  { destruct (1 <=? consecutive_same_type_count (self w))%Z.
    - eapply returns_bind; [apply returns_random|].
      intros; now apply returns_ret.
    - now apply returns_ret. }
  intros force w3 Hf3 _.
  apply (returns_bind _ _ _ (scaled fs p0)).
  { destruct force; [now apply push_away_stage | now apply returns_ret]. }
  intros p2 w4 Hf4 Hs2.
  eapply returns_bind; [apply returns_random|].
  intros u w5 Hf5 _. cbv beta.
  destruct (Qltb u 0.2); [|now apply returns_ret].
  rewrite (scaled_keys fs p0 p2 Hs2), Hk.
  destruct (list_remove_response_type last Hv) as (others & -> & Hne & Hsub).
  apply (returns_bind _ _ _ (fun x => In x others)).
  { now apply returns_choice. }
  intros x w6 Hf6 Hx.
  eapply returns_mul_item;
    [eassumption | rewrite Hk; now apply Hsub | apply factor_ok_pos; reflexivity].
Qed.

Lemma randomness_loop_stage (fs : factors) (p0 : dict) (randomness : Q) :
  forall (ks : list string) (p : dict) (w : world),
    (forall k, In k ks -> In k (keys p0)) ->
    scaled fs p0 p ->
    (forall i, factor_ok fs (1.0 + randomness * (floats (rnd w) i * 2 - 1))) ->
    returns (randomness_loop randomness ks p) w (scaled fs p0).
Proof.
  induction ks as [|key ks IH]; intros p w Hks Hs Hfac; simpl.
  - now apply returns_ret.
  - apply (returns_bind _ _ _ (fun u => exists i, u = floats (rnd w) i));
      [apply returns_random|].
    intros u w1 Hf1 [i ->].
    apply (returns_bind _ _ _ (scaled fs p0)).
    + eapply returns_mul_item; [eassumption | apply Hks; now left | apply Hfac].
    + intros p1 w2 Hf2 Hs1. apply IH.
      * intros k Hk. apply Hks. now right.
      * exact Hs1.
      * destruct (frame_trans _ _ _ Hf1 Hf2) as (_ & -> & _). exact Hfac.
Qed.

Lemma randomness_stage (fs : factors) (cfg : config) (p0 p : dict) (w : world) :
  scaled fs p0 p ->
  (forall i, factor_ok fs (random_adjustment cfg (rnd w) i)) ->
  returns (_apply_randomness cfg p) w (scaled fs p0).
Proof.
  intros Hs Hfac. unfold _apply_randomness.
  apply randomness_loop_stage; [|exact Hs|exact Hfac].
  intros k Hk. now rewrite <- (scaled_keys fs p0 p Hs).
Qed.

Lemma base_keys (cfg : config) : keys (base_probabilities cfg) = response_types.
Proof. reflexivity. Qed.

Lemma adjusted_stage (fs : factors) (cfg : config) (message_content : str)
    (ctx : option context) (w : world) :
  valid_type (last_response_type (self w)) ->
  (forall i, factor_ok fs (random_adjustment cfg (rnd w) i)) ->
  returns (adjusted_probabilities cfg message_content ctx) w
    (scaled fs (base_probabilities cfg)).
Proof.
  intros Hv Hfac. unfold adjusted_probabilities.
  pose proof (base_keys cfg) as Hk.
  apply (returns_bind _ _ _ (scaled fs (base_probabilities cfg))).
  { apply content_stage; [exact Hk | apply scaled_refl]. }
  intros p1 w1 Hf1 Hs1.
  apply (returns_bind _ _ _ (scaled fs (base_probabilities cfg))).
  { destruct ctx; [now apply context_stage | now apply returns_ret]. }
  intros p2 w2 Hf2 Hs2.
  pose proof (frame_trans _ _ _ Hf1 Hf2) as (Hself & Hfl & _).
  apply (returns_bind _ _ _ (scaled fs (base_probabilities cfg))).
  { apply variety_stage; [exact Hk | exact Hs2 | now rewrite Hself]. }
  intros p3 w3 Hf3 Hs3.
  apply randomness_stage; [exact Hs3|].
  destruct Hf3 as (_ & Hfl3 & _).
  intros i. unfold random_adjustment. rewrite Hfl3, Hfl. apply Hfac.
Qed.

(** *** Sums and signs *)

Lemma fold_plus_ge (l : list Q) :
  Forall (fun x => 0 <= x) l -> forall c, c <= fold_left Qplus l c.
Proof.
  induction 1 as [|x l Hx _ IH]; intros c; simpl.
  - apply Qle_refl.
  - eapply Qle_trans; [|apply IH]. lra.
Qed.

Lemma scaled_nonneg (p0 p : dict) :
  scaled NonNegative p0 p -> nonneg p0 -> nonneg p.
Proof.
  induction 1 as [|a b p0 p (_ & f & Hf & Hv) _ IH]; intros Hn;
    [constructor|].
  inversion Hn as [|? ? Ha Hn']; subst.
  constructor; [|now apply IH].
  rewrite Hv. simpl in Hf. now apply Qmult_le_0_compat.
Qed.

Lemma scaled_zeros (fs : factors) (p0 p : dict) :
  scaled fs p0 p -> zeros_stay p0 p.
Proof.
  induction 1 as [|a b p0 p (_ & f & _ & Hv) _ IH]; constructor; [|exact IH].
  intros Ha. rewrite Hv, Ha. ring.
Qed.

Lemma base_nonneg (cfg : config) :
  nonneg_config cfg -> nonneg (base_probabilities cfg).
Proof.
  intros (H1 & H2 & H3 & H4 & H5).
  repeat constructor; assumption.
Qed.

(** The multiplier of the randomness stage, by the range of the factor. *)
Lemma random_adjustment_nonneg (cfg : config) (g : rng) :
  0 <= RESPONSE_LENGTH_RANDOMNESS cfg -> RESPONSE_LENGTH_RANDOMNESS cfg <= 1 ->
  unit_interval g -> forall i, 0 <= random_adjustment cfg g i.
Proof.
  intros H0 H1 Hg i. destruct (Hg i) as [Hu0 Hu1]. unfold random_adjustment.
  set (R := RESPONSE_LENGTH_RANDOMNESS cfg) in *.
  set (u := floats g i) in *.
  assert (0 <= R * u) by now apply Qmult_le_0_compat.
  nra.
Qed.

(** *** Sampling *)

Lemma normalized_keys (p : dict) : keys (normalized p) = keys p.
Proof.
  unfold normalized, keys. rewrite map_map. reflexivity.
Qed.

Lemma first_reached_in (v : Q) :
  forall p c,
    In (first_reached v (cumulate c p)) (keys p) \/
    first_reached v (cumulate c p) = "medium"%string.
Proof.
  induction p as [|[k x] p IH]; intros c; simpl.
  - now right.
  - destruct (Qleb v (c + x)).
    + left. now left.
    + destruct (IH (c + x)) as [H|H]; [left; now right | now right].
Qed.

Lemma selected_valid (p : dict) (w : world) :
  keys p = response_types -> In (selected p w) response_types.
Proof.
  intros Hk. unfold selected.
  destruct (first_reached_in (floats (rnd w) (used (rnd w)))
              (normalized p) 0) as [H| ->].
  - now rewrite normalized_keys, Hk in H.
  - simpl. tauto.
Qed.

(** *** One call of [get_response_type] *)

Lemma get_response_type_after (cfg : config) (message_content : str)
    (ctx : option context) (w w1 : world) (p : dict) :
  DYNAMIC_MESSAGE_LENGTH_ENABLED cfg = true ->
  adjusted_probabilities cfg message_content ctx w = (Ok p, w1) ->
  p <> [] ->
  get_response_type cfg message_content ctx w =
  if Qeq_bool (total p) 0 then (Raise ZeroDivisionError, w1)
  else (Ok (selected p w1),
        {| self := update_tracking (selected p w1) (self w1);
           rnd := rnd (drawn w1) |}).
Proof.
  intros Hen Hadj Hne. unfold get_response_type. rewrite Hen.
  change (negb true) with false. cbv iota. unfold bind at 1. rewrite Hadj.
  destruct p as [|kv p]; [contradiction|].
  unfold bind at 1, normalize. fold (total (kv :: p)).
  destruct (Qeq_bool (total (kv :: p)) 0); reflexivity.
Qed.

Lemma get_response_type_outcome (fs : factors) (cfg : config)
    (message_content : str) (ctx : option context) (w : world) :
  DYNAMIC_MESSAGE_LENGTH_ENABLED cfg = true ->
  valid_type (last_response_type (self w)) ->
  (forall i, factor_ok fs (random_adjustment cfg (rnd w) i)) ->
  exists p w1,
    adjusted_probabilities cfg message_content ctx w = (Ok p, w1) /\
    frame w w1 /\ scaled fs (base_probabilities cfg) p /\
    get_response_type cfg message_content ctx w =
    if Qeq_bool (total p) 0 then (Raise ZeroDivisionError, w1)
    else (Ok (selected p w1),
          {| self := update_tracking (selected p w1) (self w1);
             rnd := rnd (drawn w1) |}).
Proof.
  intros Hen Hv Hfac.
  destruct (adjusted_stage fs cfg message_content ctx w Hv Hfac)
    as (p & w1 & Hadj & Hf & Hs).
  exists p, w1. split; [exact Hadj|]. split; [exact Hf|]. split; [exact Hs|].
  apply get_response_type_after; [exact Hen | exact Hadj |].
  pose proof (scaled_keys _ _ _ Hs) as Hk. rewrite base_keys in Hk.
  intros ->. discriminate.
Qed.

Lemma update_tracking_valid (r : string) (s : manager) :
  In r response_types -> valid_state s -> valid_state (update_tracking r s).
Proof.
  intros Hr [Hl Hc]. unfold update_tracking.
  destruct (option_string_eqb (Some r) (last_response_type s));
    split; simpl; try assumption; lia.
Qed.

(** A call from a valid state returns one of the five classes and
    updates the tracking variables, or stops at the division with the
    manager untouched. *)
Lemma get_response_type_step (cfg : config) (message_content : str)
    (ctx : option context) (w : world) :
  DYNAMIC_MESSAGE_LENGTH_ENABLED cfg = true ->
  valid_state (self w) ->
  (exists r w', get_response_type cfg message_content ctx w = (Ok r, w') /\
                In r response_types /\
                self w' = update_tracking r (self w)) \/
  (exists w', get_response_type cfg message_content ctx w
              = (Raise ZeroDivisionError, w') /\ self w' = self w).
Proof.
  intros Hen [Hv _].
  destruct (get_response_type_outcome AnyFactor cfg message_content ctx w
              Hen Hv (fun _ => I)) as (p & w1 & _ & (Hself & _) & Hs & Heq).
  rewrite Heq.
  destruct (Qeq_bool (total p) 0).
  - right. now exists w1.
  - left. eexists _, _. split; [reflexivity|]. split.
    + apply selected_valid. rewrite (scaled_keys _ _ _ Hs). apply base_keys.
    + simpl. now rewrite Hself.
Qed.

Lemma get_response_type_disabled (cfg : config) (message_content : str)
    (ctx : option context) (w : world) :
  DYNAMIC_MESSAGE_LENGTH_ENABLED cfg = false ->
  get_response_type cfg message_content ctx w = (Ok "medium"%string, w).
Proof. intros H. unfold get_response_type. now rewrite H. Qed.

Lemma step_valid (cfg : config) (message_content : str)
    (ctx : option context) (w : world) :
  valid_state (self w) ->
  valid_state (self (snd (get_response_type cfg message_content ctx w))).
Proof.
  intros Hv. destruct (DYNAMIC_MESSAGE_LENGTH_ENABLED cfg) eqn:Hen.
  - destruct (get_response_type_step cfg message_content ctx w Hen Hv)
      as [(r & w' & -> & Hr & Hs)|(w' & -> & Hs)]; simpl; rewrite Hs.
    + now apply update_tracking_valid.
    + exact Hv.
  - now rewrite get_response_type_disabled.
Qed.

Lemma reachable_valid (cfg : config) (w : world) :
  reachable cfg w -> valid_state (self w).
Proof.
  induction 1 as [g|w message_content ctx _ IH].
  - split; simpl; [exact I | lia].
  - now apply step_valid.
Qed.

Lemma option_string_eqb_true (r : string) (t : option string) :
  option_string_eqb (Some r) t = true <-> t = Some r.
Proof.
  destruct t as [s|]; simpl.
  - rewrite String.eqb_eq. split; congruence.
  - split; discriminate.
Qed.

(** *** Powers of 0.8 *)

Lemma pow_succ (n : Z) : (0 <= n)%Z -> 0.8 ^ (n + 1) == 0.8 ^ n * 0.8.
Proof.
  intros Hn. rewrite Qpower_plus by discriminate. reflexivity.
Qed.

Lemma pow_antitone (n m : Z) :
  (0 <= n)%Z -> (n <= m)%Z -> 0.8 ^ m <= 0.8 ^ n.
Proof.
  intros Hn Hm.
  assert (H : forall k : nat, 0.8 ^ (n + Z.of_nat k) <= 0.8 ^ n).
  { induction k as [|k IH].
    - rewrite Z.add_0_r. apply Qle_refl.
    - replace (n + Z.of_nat (S k))%Z with (n + Z.of_nat k + 1)%Z by lia.
      rewrite pow_succ by lia.
      assert (0 < 0.8 ^ (n + Z.of_nat k)) by (apply Qpower_0_lt; reflexivity).
      lra. }
  replace m with (n + Z.of_nat (Z.to_nat (m - n)))%Z by lia.
  apply H.
Qed.

(** *** The claims on the selector *)

(** C3, as stated: the damping factor never falls below 0.3.  After six
    repeats it is 0.262144. *)
Lemma reduction_factor_below_floor : ~ 0.3 <= reduction_factor 6.
Proof. intros H. vm_compute in H. now apply H. Qed.

(** C3, amended.  For [1 <= n <= m] the damping factor
    [min(0.3, 0.8 ** m)] is at most the factor at [n] and is at most
    0.3: a cap, not a floor.  It is 0.3 up to five repeats and
    [0.8 ** m], below 0.3, from six repeats on. *)
Theorem reduction_factor_damping (n m : Z) :
  (1 <= n)%Z -> (n <= m)%Z ->
  reduction_factor m <= reduction_factor n /\
  reduction_factor m <= 0.3 /\
  ((m <= 5)%Z -> reduction_factor m == 0.3) /\
  ((6 <= m)%Z -> reduction_factor m == 0.8 ^ m /\ reduction_factor m < 0.3).
Proof.
  intros Hn Hm. unfold reduction_factor.
  split; [|split; [|split]].
  - apply Q.min_le_compat_l. apply pow_antitone; lia.
  - apply Q.le_min_l.
  - intros H5.
    assert (Hcases : m = 1%Z \/ m = 2%Z \/ m = 3%Z \/ m = 4%Z \/ m = 5%Z)
      by lia.
    destruct Hcases as [->|[->|[->|[->| ->]]]]; vm_compute; reflexivity.
  - intros H6.
    assert (Hlt : 0.8 ^ m < 0.3).
    { eapply Qle_lt_trans; [apply (pow_antitone 6 m); lia|].
      vm_compute. reflexivity. }
    split.
    + apply Q.min_r. now apply Qlt_le_weak.
    + rewrite Q.min_r by now apply Qlt_le_weak. exact Hlt.
Qed.

Lemma reduction_factor_damping_witness :
  (1 <= 3)%Z /\ (3 <= 7)%Z /\
  reduction_factor 7 <= reduction_factor 3 /\
  reduction_factor 7 < 0.3.
Proof.
  destruct (reduction_factor_damping 3 7) as (H1 & _ & _ & H5);
    [lia | lia |].
  split; [lia|]. split; [lia|]. split; [exact H1|].
  apply H5. lia.
Defined.




(** C7, as stated: a stage that could drive a weight to zero clamps it
    to a positive floor, so the normalization never divides by zero.
    With the randomness factor at 1 and draws of 0 the randomness stage
    multiplies every weight by 0, nothing clamps, and the normalization
    raises [ZeroDivisionError]. *)
Lemma weights_driven_to_zero :
  nonneg_config full_randomness_config /\
  unit_interval (rnd (fresh 0)) /\
  (exists p w', adjusted_probabilities full_randomness_config (lit "hi") None
                  (fresh 0) = (Ok p, w') /\
                Forall (fun kv => snd kv == 0) p) /\
  fst (get_response_type full_randomness_config (lit "hi") None (fresh 0))
  = Raise ZeroDivisionError.
Proof.
  split; [|split; [|split]].
  - repeat split; discriminate.
  - intros i. split; [discriminate | reflexivity].
  - eexists _, _. split; [vm_compute; reflexivity|].
    repeat constructor.
  - vm_compute. reflexivity.
Qed.

Lemma scaled_post (p p' : dict) :
  keys p = response_types -> nonneg p -> scaled NonNegative p p' ->
  keys p' = response_types /\ nonneg p' /\ zeros_stay p p'.
Proof.
  intros Hk Hn Hs. split; [|split].
  - now rewrite (scaled_keys _ _ _ Hs).
  - now apply (scaled_nonneg p).
  - now apply (scaled_zeros NonNegative).
Qed.

(** C7, amended.  With a randomness factor in [0, 1] and draws in
    [0, 1), each of the four adjustment stages, started on non-negative
    weights, returns non-negative weights; no stage applies a floor, a
    zero weight stays zero.  So with non-negative base weights the sum
    the normalization divides by is never negative, but it can be zero:
    then the division raises [ZeroDivisionError]; otherwise the sum is
    positive and a class is returned. *)
Theorem stages_keep_weights_nonnegative (cfg : config) :
  0 <= RESPONSE_LENGTH_RANDOMNESS cfg -> RESPONSE_LENGTH_RANDOMNESS cfg <= 1 ->
  (forall message_content,
     keeps_nonneg (fun p => _adjust_probabilities_for_content p message_content)) /\
  (forall ctx, keeps_nonneg (fun p => _adjust_probabilities_for_context p ctx)) /\
  keeps_nonneg _adjust_probabilities_for_variety /\
  keeps_nonneg (_apply_randomness cfg) /\
  (nonneg_config cfg -> DYNAMIC_MESSAGE_LENGTH_ENABLED cfg = true ->
   forall message_content ctx w,
     valid_state (self w) -> unit_interval (rnd w) ->
     exists p w1,
       adjusted_probabilities cfg message_content ctx w = (Ok p, w1) /\
       nonneg p /\ zeros_stay (base_probabilities cfg) p /\
       0 <= total p /\
       ((total p == 0 /\
         get_response_type cfg message_content ctx w
         = (Raise ZeroDivisionError, w1)) \/
        (0 < total p /\
         exists r w',
           get_response_type cfg message_content ctx w = (Ok r, w')))).
Proof.
  intros HR0 HR1. split; [|split; [|split; [|split]]].
  - intros message_content p w Hk Hn _ _.
    eapply returns_weaken;
      [apply (content_stage NonNegative p p); [exact Hk | apply scaled_refl]|].
    intros p'. now apply scaled_post.
  - intros ctx p w Hk Hn _ _.
    eapply returns_weaken;
      [apply (context_stage NonNegative p p); [exact Hk | apply scaled_refl]|].
    intros p'. now apply scaled_post.
  - intros p w Hk Hn [Hv _] _.
    eapply returns_weaken;
      [apply (variety_stage NonNegative p p);
       [exact Hk | apply scaled_refl | exact Hv]|].
    intros p'. now apply scaled_post.
  - intros p w Hk Hn _ Hg.
    eapply returns_weaken;
      [apply (randomness_stage NonNegative cfg p p); [apply scaled_refl|]|].
    + now apply random_adjustment_nonneg.
    + intros p'. now apply scaled_post.
  - intros Hnn Hen message_content ctx w [Hv _] Hg.
    destruct (get_response_type_outcome NonNegative cfg message_content ctx w
                Hen Hv (random_adjustment_nonneg cfg (rnd w) HR0 HR1 Hg))
      as (p & w1 & Hadj & _ & Hs & Heq).
    assert (Hn : nonneg p)
      by (apply (scaled_nonneg (base_probabilities cfg));
          [exact Hs | now apply base_nonneg]).
    assert (Ht : 0 <= total p).
    { unfold total, sum, values. apply fold_plus_ge.
      apply Forall_map. exact Hn. }
    exists p, w1. split; [exact Hadj|]. split; [exact Hn|].
    split; [now apply (scaled_zeros NonNegative)|]. split; [exact Ht|].
    destruct (Qeq_bool (total p) 0) eqn:Hz.
    + left. split; [now apply Qeq_bool_iff | exact Heq].
    + right. split.
      * apply Qle_lteq in Ht as [Hlt|Heq0]; [exact Hlt|].
        exfalso. symmetry in Heq0. apply Qeq_bool_iff in Heq0. congruence.
      * eexists _, _. exact Heq.
Qed.

Lemma stages_keep_weights_nonnegative_witness :
  0 <= RESPONSE_LENGTH_RANDOMNESS default_config /\
  RESPONSE_LENGTH_RANDOMNESS default_config <= 1 /\
  nonneg_config default_config /\
  valid_state (self (fresh 0.5)) /\ unit_interval (rnd (fresh 0.5)) /\
  returns (_apply_randomness default_config (base_probabilities zero_config))
    (fresh 0.5)
    (fun p' => keys p' = response_types /\ nonneg p' /\
               zeros_stay (base_probabilities zero_config) p') /\
  exists p w1,
    adjusted_probabilities default_config (lit "hi") None (fresh 0.5)
    = (Ok p, w1) /\
    nonneg p /\ 0 <= total p.
Proof.
  assert (H0 : 0 <= RESPONSE_LENGTH_RANDOMNESS default_config) by discriminate.
  assert (H1 : RESPONSE_LENGTH_RANDOMNESS default_config <= 1) by discriminate.
  assert (Hnn : nonneg_config default_config) by (repeat split; discriminate).
  assert (Hv : valid_state (self (fresh 0.5)))
    by (split; [exact I | discriminate]).
  assert (Hg : unit_interval (rnd (fresh 0.5)))
    by (intros i; split; [discriminate | reflexivity]).
  destruct (stages_keep_weights_nonnegative default_config H0 H1)
    as (_ & _ & _ & Hrand & Htotal).
  split; [exact H0|]. split; [exact H1|]. split; [exact Hnn|].
  split; [exact Hv|]. split; [exact Hg|]. split.
  - apply Hrand.
    + reflexivity.
    + repeat constructor; discriminate.
    + exact Hv.
    + exact Hg.
  - destruct (Htotal Hnn eq_refl (lit "hi") None (fresh 0.5) Hv Hg)
      as (p & w1 & Hadj & Hn & _ & Ht & _).
    exists p, w1. split; [exact Hadj|]. split; [exact Hn | exact Ht].
Defined.

(** C8.  With [DYNAMIC_MESSAGE_LENGTH_ENABLED] off, a call returns
    ["medium"] and leaves the world as it was: the manager's two
    attributes and the position in the random source.  A whole
    conversation therefore returns ["medium"] at every turn and ends in
    the world it started from. *)
Theorem disabled_mode_is_inert (cfg : config) (w : world) :
  DYNAMIC_MESSAGE_LENGTH_ENABLED cfg = false ->
  (forall message_content ctx,
     get_response_type cfg message_content ctx w = (Ok "medium"%string, w)) /\
  (forall turns,
     run_turns cfg turns w
     = (map (fun _ => Ok "medium"%string) turns, w)).
Proof.
  intros Hoff. split.
  - intros. now apply get_response_type_disabled.
  - induction turns as [|[message_content ctx] turns IH]; simpl.
    + reflexivity.
    + rewrite get_response_type_disabled by exact Hoff.
      now rewrite IH.
Qed.

Lemma disabled_mode_is_inert_witness :
  DYNAMIC_MESSAGE_LENGTH_ENABLED disabled_config = false /\
  run_turns disabled_config
    [(lit "hello?", None);
     (lit "tell me more", Some {| is_first_message := false; message_count := 7 |})]
    (fresh 0.5)
  = ([Ok "medium"%string; Ok "medium"%string], fresh 0.5).
Proof.
  split; [reflexivity|].
  apply (proj2 (disabled_mode_is_inert disabled_config (fresh 0.5) eq_refl)).
Defined.

(** C9, as stated: after [k >= 1] consecutive turns that selected the
    same class the count is [k].  After the first turn of a
    conversation, which selects ["medium"] here, the count is 0. *)
Lemma count_after_first_turn :
  fst (run_turns default_config [(lit "hi", None)] (fresh 0.5))
  = [Ok "medium"%string] /\
  last_response_type
    (self (snd (run_turns default_config [(lit "hi", None)] (fresh 0.5))))
  = Some "medium"%string /\
  consecutive_same_type_count
    (self (snd (run_turns default_config [(lit "hi", None)] (fresh 0.5))))
  <> 1%Z.
Proof.
  split; [|split]; vm_compute; [reflexivity | reflexivity | discriminate].
Qed.

Lemma run_same_class (cfg : config) (C : string) :
  DYNAMIC_MESSAGE_LENGTH_ENABLED cfg = true ->
  forall turns w,
    valid_state (self w) ->
    last_response_type (self w) = Some C ->
    Forall (fun r => r = Ok C) (fst (run_turns cfg turns w)) ->
    last_response_type (self (snd (run_turns cfg turns w))) = Some C /\
    consecutive_same_type_count (self (snd (run_turns cfg turns w)))
    = (consecutive_same_type_count (self w) + Z.of_nat (List.length turns))%Z.
Proof.
  intros Hen.
  induction turns as [|[message_content ctx] turns IH]; intros w Hv Hlast Hall.
  - simpl. split; [exact Hlast | lia].
  - cbn [run_turns] in *.
    destruct (get_response_type_step cfg message_content ctx w Hen Hv)
      as [(r & w1 & Heq & Hr & Hs)|(w1 & Heq & Hs)];
      rewrite Heq in *;
      destruct (run_turns cfg turns w1) as [rs w2] eqn:Erun;
      cbn [fst snd] in *;
      inversion Hall as [|? ? Hhead Htail]; subst; [|discriminate].
    injection Hhead as ->.
    assert (Hw1 : self w1 =
                  {| last_response_type := Some C;
                     consecutive_same_type_count :=
                       (consecutive_same_type_count (self w) + 1)%Z |}).
    { rewrite Hs. unfold update_tracking.
      rewrite (proj2 (option_string_eqb_true C _) Hlast). now rewrite Hlast. }
    specialize (IH w1). rewrite Erun in IH. cbn [fst snd] in IH.
    destruct IH as [IH1 IH2].
    + rewrite Hs. now apply update_tracking_valid.
    + now rewrite Hw1.
    + exact Htail.
    + split; [exact IH1|]. rewrite IH2, Hw1. simpl. lia.
Qed.

(** C9, amended.  With dynamic length enabled and from a valid state: a
    turn that selects the class already in [last_response_type] adds one
    to the count, a turn that selects another class stores it and sets
    the count to 0; so after [k >= 1] consecutive turns that all selected
    [C], begun in a state whose last class was not [C], the last class is
    [C] and the count is [k - 1], the number of repeats after the
    first. *)
Theorem consecutive_count_tracks_repeats (cfg : config) (C : string)
    (turns : list (str * option context)) (w : world) :
  DYNAMIC_MESSAGE_LENGTH_ENABLED cfg = true ->
  valid_state (self w) ->
  turns <> [] ->
  last_response_type (self w) <> Some C ->
  Forall (fun r => r = Ok C) (fst (run_turns cfg turns w)) ->
  last_response_type (self (snd (run_turns cfg turns w))) = Some C /\
  consecutive_same_type_count (self (snd (run_turns cfg turns w)))
  = (Z.of_nat (List.length turns) - 1)%Z /\
  (forall message_content ctx r w',
     get_response_type cfg message_content ctx w = (Ok r, w') ->
     self w' = update_tracking r (self w)).
Proof.
  intros Hen Hv Hne Hlast Hall.
  assert (Hstep : forall message_content ctx r w',
             get_response_type cfg message_content ctx w = (Ok r, w') ->
             In r response_types /\ self w' = update_tracking r (self w)).
  { intros message_content ctx r w' Heq.
    destruct (get_response_type_step cfg message_content ctx w Hen Hv)
      as [(r1 & w1 & Heq1 & Hr & Hs)|(w1 & Heq1 & _)];
      rewrite Heq1 in Heq; [|discriminate].
    injection Heq as <- <-. now split. }
  destruct turns as [|[message_content ctx] turns]; [contradiction|].
  cbn [run_turns] in *.
  destruct (get_response_type cfg message_content ctx w) as [r w1] eqn:Heq.
  destruct (run_turns cfg turns w1) as [rs w2] eqn:Erun.
  cbn [fst snd] in *.
  inversion Hall as [|? ? Hhead Htail]; subst.
  destruct (Hstep _ _ _ _ Heq) as [Hr Hs].
  assert (Hw1 : self w1 = {| last_response_type := Some C;
                             consecutive_same_type_count := 0%Z |}).
  { rewrite Hs. unfold update_tracking.
    destruct (option_string_eqb (Some C) (last_response_type (self w))) eqn:E;
      [|reflexivity].
    apply option_string_eqb_true in E. contradiction. }
  pose proof (run_same_class cfg C Hen turns w1) as Hrun.
  rewrite Erun in Hrun. cbn [fst snd] in Hrun.
  destruct Hrun as [H1 H2].
  - rewrite Hs. now apply update_tracking_valid.
  - now rewrite Hw1.
  - exact Htail.
  - split; [exact H1|]. split.
    + rewrite H2, Hw1. simpl List.length. simpl consecutive_same_type_count. lia.
    + intros mc cx r' w' Heq'. now apply (Hstep mc cx).
Qed.

Lemma consecutive_count_tracks_repeats_witness :
  DYNAMIC_MESSAGE_LENGTH_ENABLED default_config = true /\
  valid_state (self (fresh 0.5)) /\
  last_response_type (self (fresh 0.5)) <> Some "medium"%string /\
  Forall (fun r => r = Ok "medium"%string)
    (fst (run_turns default_config [(lit "hi", None); (lit "hi", None)]
            (fresh 0.5))) /\
  last_response_type
    (self (snd (run_turns default_config [(lit "hi", None); (lit "hi", None)]
                  (fresh 0.5))))
  = Some "medium"%string /\
  consecutive_same_type_count
    (self (snd (run_turns default_config [(lit "hi", None); (lit "hi", None)]
                  (fresh 0.5))))
  = (Z.of_nat 2 - 1)%Z.
Proof.
  assert (Hv : valid_state (self (fresh 0.5)))
    by (split; [exact I | discriminate]).
  assert (Hlast : last_response_type (self (fresh 0.5)) <> Some "medium"%string)
    by discriminate.
  assert (Hall : Forall (fun r => r = Ok "medium"%string)
                   (fst (run_turns default_config
                           [(lit "hi", None); (lit "hi", None)] (fresh 0.5))))
    by (vm_compute; repeat constructor).
  destruct (consecutive_count_tracks_repeats default_config "medium"
              [(lit "hi", None); (lit "hi", None)] (fresh 0.5)
              eq_refl Hv ltac:(discriminate) Hlast Hall) as (H1 & H2 & _).
  repeat split; try assumption. apply Hv.
Defined.

(** C10.  In every state a conversation can reach, [last_response_type]
    is [None] or one of the five class names and the count is not
    negative.  The variety stage does nothing while [last_response_type]
    is [None]; on a dict with the five keys it returns normally, so the
    lookup [probabilities[last_response_type]] and the removal from the
    list of keys succeed; and [get_response_type] raises none of
    [KeyError], [ValueError], [IndexError]. *)
Theorem variety_lookups_never_fail (cfg : config) (w : world) :
  reachable cfg w ->
  valid_state (self w) /\
  (last_response_type (self w) = None ->
   forall p, _adjust_probabilities_for_variety p w = (Ok p, w)) /\
  (forall p, keys p = response_types ->
   exists p' w', _adjust_probabilities_for_variety p w = (Ok p', w') /\
                 keys p' = response_types) /\
  (forall message_content ctx e,
     fst (get_response_type cfg message_content ctx w) = Raise e ->
     e = ZeroDivisionError).
Proof.
  intros Hreach. pose proof (reachable_valid cfg w Hreach) as Hv.
  split; [exact Hv|]. split; [|split].
  - intros Hnone p. unfold _adjust_probabilities_for_variety, bind, get_self.
    rewrite Hnone. simpl. now rewrite andb_false_r.
  - intros p Hk.
    destruct (variety_stage AnyFactor p p w Hk (scaled_refl _ _) (proj1 Hv))
      as (p' & w' & Heq & _ & Hs).
    exists p', w'. split; [exact Heq|].
    now rewrite (scaled_keys _ _ _ Hs).
  - intros message_content ctx e.
    destruct (DYNAMIC_MESSAGE_LENGTH_ENABLED cfg) eqn:Hen.
    + destruct (get_response_type_step cfg message_content ctx w Hen Hv)
        as [(r & w' & -> & _)|(w' & -> & _)]; simpl; congruence.
    + rewrite get_response_type_disabled by exact Hen. simpl. discriminate.
Qed.

Lemma variety_lookups_never_fail_witness :
  reachable default_config
    (snd (get_response_type default_config (lit "hi") None
            (snd (get_response_type default_config (lit "hi") None (fresh 0.5)))))
  /\
  exists p' w',
    _adjust_probabilities_for_variety (base_probabilities default_config)
      (snd (get_response_type default_config (lit "hi") None
              (snd (get_response_type default_config (lit "hi") None
                      (fresh 0.5)))))
    = (Ok p', w') /\ keys p' = response_types.
Proof.
  assert (Hreach : reachable default_config
            (snd (get_response_type default_config (lit "hi") None
               (snd (get_response_type default_config (lit "hi") None
                       (fresh 0.5)))))).
  { apply reach_turn. apply reach_turn. apply reach_init. }
  split; [exact Hreach|].
  destruct (variety_lookups_never_fail default_config _ Hreach)
    as (_ & _ & Hvar & _).
  apply Hvar. reflexivity.
Defined.

End SelectorProofs.

(** ** Words, sizes and empty chunks of the segmenter *)

Module SegmenterWords.
Import PyStr Segmenter SegmenterSpec Words SegmenterProofs.

Lemma words_scan (s : str) : words s = emit (fst (scan s)) ++ snd (scan s).
Proof. unfold words. now destruct (scan s). Qed.

Lemma scan_cons (c : ascii) (s : str) :
  scan (c :: s) = if is_sep c then ([], words s) else (c :: fst (scan s), snd (scan s)).
Proof. rewrite words_scan. simpl. now destruct (scan s). Qed.

Lemma words_cons_sep (c : ascii) (s : str) :
  is_sep c = true -> words (c :: s) = words s.
Proof. intros H. rewrite (words_scan (c :: s)), scan_cons, H. reflexivity. Qed.

Lemma scan_app_sep (c : ascii) (b : str) :
  is_sep c = true ->
  forall a, scan (a ++ c :: b) = (fst (scan a), snd (scan a) ++ words b).
Proof.
  intros Hc. induction a as [|x a IH].
  - cbn [app]. now rewrite scan_cons, Hc.
  - cbn [app]. rewrite (scan_cons x (a ++ c :: b)), (scan_cons x a).
    destruct (is_sep x); cbn [fst snd].
    + rewrite (words_scan (a ++ c :: b)), IH. cbn [fst snd].
      now rewrite app_assoc, <- words_scan.
    + rewrite IH. reflexivity.
Qed.

Lemma words_app_sep (c : ascii) (a b : str) :
  is_sep c = true -> words (a ++ c :: b) = words a ++ words b.
Proof.
  intros Hc. rewrite (words_scan (a ++ c :: b)), scan_app_sep by exact Hc.
  cbn [fst snd]. now rewrite app_assoc, <- words_scan.
Qed.

Lemma words_sep_prefix (a b : str) :
  forallb is_sep a = true -> words (a ++ b) = words b.
Proof.
  induction a as [|c a IH]; intros H; [reflexivity|].
  simpl in H. apply andb_prop in H as [Hc Ha].
  cbn [app]. rewrite words_cons_sep by exact Hc. now apply IH.
Qed.

Lemma scan_congr (x y : str) :
  scan x = scan y -> forall a, scan (a ++ x) = scan (a ++ y).
Proof.
  intros H. induction a as [|c a IH]; [exact H|].
  cbn [app]. rewrite !scan_cons, !words_scan, IH. reflexivity.
Qed.

Lemma pieces_words (pieces : list str) :
  pieces <> [] ->
  flat_map words pieces
  = emit (fst (pieces_scan pieces)) ++ snd (pieces_scan pieces).
Proof.
  destruct pieces as [|p ps]; [congruence|]. intros _.
  simpl. now rewrite words_scan, app_assoc.
Qed.

(** Cutting at a separator made of spaces and newlines keeps the words. *)
Lemma split_go_scan (sep : str) :
  sep <> [] -> forallb is_sep sep = true ->
  forall s skip, pieces_scan (split_go sep s skip) = scan (skipn skip s).
Proof.
  intros Hne Hsep.
  induction s as [|c s IH]; intros skip; cbn [split_go].
  - now rewrite skipn_nil.
  - destruct skip as [|k]; [|apply IH].
    cbn [skipn].
    destruct (startswith (c :: s) sep) eqn:E.
    + apply startswith_cut in E.
      destruct sep as [|p sep']; [contradiction|].
      simpl in Hsep. apply andb_prop in Hsep as [Hp Hsep'].
      cbn [List.length Nat.sub skipn app] in *. rewrite Nat.sub_0_r.
      injection E as <- E.
      cbn [pieces_scan]. simpl scan at 1 2. cbn [fst snd app].
      rewrite pieces_words by apply split_go_nonempty.
      rewrite IH, <- words_scan.
      rewrite scan_cons, Hp. f_equal.
      rewrite E at 2. now rewrite words_sep_prefix.
    + specialize (IH 0%nat). cbn [skipn] in IH.
      pose proof (split_go_nonempty sep s 0) as Hq.
      destruct (split_go sep s 0) as [|q qs]; [congruence|].
      cbn [pieces_scan] in *. rewrite !scan_cons.
      rewrite <- IH. cbn [fst snd].
      destruct (is_sep c); [|reflexivity].
      rewrite (words_scan s), <- IH. cbn [fst snd].
      now rewrite words_scan, app_assoc.
Qed.

Lemma split_words (sep s : str) :
  sep <> [] -> forallb is_sep sep = true ->
  flat_map words (split sep s) = words s.
Proof.
  intros Hne Hsep. unfold split.
  rewrite pieces_words by apply split_go_nonempty.
  rewrite split_go_scan by assumption. cbn [skipn]. now rewrite words_scan.
Qed.

(** Replacing [old] by a [new] that scans alike keeps the scan. *)
Lemma replace_go_scan (old new : str) :
  old <> [] ->
  (forall rest, scan (new ++ rest) = scan (old ++ rest)) ->
  forall s skip, scan (replace_go old new s skip) = scan (skipn skip s).
Proof.
  intros Hne Hon.
  induction s as [|c s IH]; intros skip; cbn [replace_go].
  - now rewrite skipn_nil.
  - destruct skip as [|k]; [|apply IH].
    cbn [skipn].
    destruct (startswith (c :: s) old) eqn:E.
    + apply startswith_cut in E.
      destruct old as [|p old']; [contradiction|].
      cbn [List.length Nat.sub skipn] in *. rewrite Nat.sub_0_r.
      rewrite (scan_congr _ _ (IH (List.length old')) new), Hon.
      injection E as <- E. cbn [app].
      rewrite E at 2. reflexivity.
    + rewrite !scan_cons, !words_scan, (IH 0%nat). reflexivity.
Qed.

Lemma replace_words (s : str) :
  words (replace [dot; sp] [dot; nl] s) = words s.
Proof.
  unfold replace. rewrite !words_scan, replace_go_scan; [reflexivity|discriminate|].
  intros rest. reflexivity.
Qed.

(** *** The words of an accumulator *)

Lemma acc_words_snoc (chunks : list str) (cc s : str) :
  acc_words (chunks ++ [cc], s) = acc_words (chunks, cc) ++ words s.
Proof.
  unfold acc_words. cbn [fst snd]. rewrite flat_map_app. cbn [flat_map].
  now rewrite app_nil_r.
Qed.

Lemma flush_words (a : acc) : acc_words (flush a) = acc_words a.
Proof.
  destruct a as [chunks cc]. unfold flush.
  destruct (truthy cc); [|reflexivity].
  rewrite acc_words_snoc. apply app_nil_r.
Qed.

Lemma join_words (chunks : list str) (cc s : str) :
  acc_words (chunks, cc ++ sp :: s) = acc_words (chunks, cc) ++ words s.
Proof.
  unfold acc_words. cbn [fst snd].
  rewrite words_app_sep by reflexivity. now rewrite app_assoc.
Qed.

Lemma start_words (chunks : list str) (s : str) :
  acc_words (chunks, s) = acc_words (chunks, []) ++ words s.
Proof. unfold acc_words. cbn [fst snd]. now rewrite app_nil_r. Qed.

Lemma fold_left_words (step : acc -> str -> acc) :
  (forall a x, acc_words (step a x) = acc_words a ++ words x) ->
  forall (l : list str) (a : acc),
    acc_words (fold_left step l a) = acc_words a ++ flat_map words l.
Proof.
  intros Hstep. induction l as [|x l IH]; intros a; simpl.
  - now rewrite app_nil_r.
  - now rewrite IH, Hstep, app_assoc.
Qed.

Lemma word_step_words (max_length : Z) (a : acc) (word : str) :
  acc_words (word_step max_length a word) = acc_words a ++ words word.
Proof.
  destruct a as [chunks cc]. unfold word_step.
  destruct (max_length <? len cc + len word + 1)%Z.
  - apply acc_words_snoc.
  - destruct (truthy cc) eqn:E.
    + apply join_words.
    + apply truthy_false in E. subst cc. apply start_words.
Qed.

Lemma sentence_step_words (max_length : Z) (a : acc) (sentence : str) :
  acc_words (sentence_step max_length a sentence)
  = acc_words a ++ words sentence.
Proof.
  destruct a as [chunks cc]. unfold sentence_step.
  destruct (max_length <? len cc + len sentence + 1)%Z.
  - destruct (max_length <? len sentence)%Z.
    + rewrite (fold_left_words _ (word_step_words max_length)).
      rewrite flush_words, split_words; [reflexivity|discriminate|reflexivity].
    + rewrite <- (flush_words (chunks, cc)).
      unfold flush. destruct (truthy cc) eqn:E; cbn [fst].
      * apply start_words.
      * apply truthy_false in E. subst cc. apply start_words.
  - destruct (truthy cc) eqn:E.
    + apply join_words.
    + apply truthy_false in E. subst cc. apply start_words.
Qed.

Lemma paragraph_step_words (max_length : Z) (a : acc) (paragraph : str) :
  acc_words (paragraph_step max_length a paragraph)
  = acc_words a ++ words paragraph.
Proof.
  destruct a as [chunks cc]. unfold paragraph_step.
  destruct (max_length <? len cc + len paragraph + 2)%Z.
  - destruct (max_length <? len paragraph)%Z.
    + rewrite (fold_left_words _ (sentence_step_words max_length)).
      rewrite flush_words, split_words; [|discriminate|reflexivity].
      now rewrite replace_words.
    + rewrite <- (flush_words (chunks, cc)).
      unfold flush. destruct (truthy cc) eqn:E; cbn [fst].
      * apply start_words.
      * apply truthy_false in E. subst cc. apply start_words.
  - destruct (truthy cc) eqn:E.
    + unfold acc_words. cbn [fst snd].
      rewrite words_app_sep by reflexivity.
      rewrite words_cons_sep by reflexivity. now rewrite app_assoc.
    + apply truthy_false in E. subst cc. apply start_words.
Qed.

Lemma split_long_message_words (text : str) (max_length : Z) :
  flat_map words (split_long_message text max_length) = words text.
Proof.
  unfold split_long_message.
  destruct (len text <=? max_length)%Z.
  - simpl. apply app_nil_r.
  - pose proof (fold_left_words _ (paragraph_step_words max_length)
                  (split [nl; nl] text) ([], [])) as H.
    rewrite split_words in H; [|discriminate|reflexivity].
    destruct (fold_left (paragraph_step max_length) (split [nl; nl] text)
                ([], [])) as [chunks cc].
    unfold acc_words in H. cbn [fst snd app flat_map] in H.
    destruct (truthy cc) eqn:E.
    + rewrite flat_map_app. cbn [flat_map]. now rewrite app_nil_r.
    + apply truthy_false in E. subst cc.
      change (words []) with (@nil str) in H. now rewrite app_nil_r in H.
Qed.

(** A non-empty string without separator is its own single word. *)
Lemma scan_atomic (c : str) :
  ~ In sp c -> ~ In nl c -> scan c = (c, []).
Proof.
  induction c as [|x c IH]; intros Hsp Hnl; [reflexivity|].
  rewrite scan_cons.
  assert (Hx : is_sep x = false).
  { unfold is_sep. apply orb_false_intro; apply Ascii.eqb_neq;
      intros ->; [apply Hsp | apply Hnl]; now left. }
  rewrite Hx, IH; [reflexivity | |]; intros H; [apply Hsp | apply Hnl];
    now right.
Qed.

Lemma words_atomic (c : str) :
  ~ In sp c -> ~ In nl c -> c <> [] -> words c = [c].
Proof.
  intros Hsp Hnl Hne. rewrite words_scan, scan_atomic by assumption.
  destruct c; [contradiction|reflexivity].
Qed.

Lemma chunks_bounded (text : str) (max_length : Z) :
  Forall (bounded max_length) (split_long_message text max_length).
Proof.
  unfold split_long_message.
  destruct (Z.leb_spec (len text) max_length) as [Hle|Hgt].
  - constructor; [now left | constructor].
  - assert (H : acc_bounded max_length
                  (fold_left (paragraph_step max_length)
                     (split [nl; nl] text) ([], []))).
    { apply (fold_left_invariant (acc_bounded max_length)).
      - split; [constructor | apply bounded_nil].
      - intros a p _ Ha. now apply paragraph_step_bounded. }
    destruct (fold_left (paragraph_step max_length) (split [nl; nl] text)
                ([], [])) as [chunks cc].
    destruct H as [Hc Hcc]. cbn [fst snd] in Hc, Hcc.
    destruct (truthy cc); [now apply Forall_snoc | exact Hc].
Qed.

(** *** Texts without a place to cut *)

Lemma startswith_incl (pre : str) :
  forall s x, startswith s pre = true -> In x pre -> In x s.
Proof.
  induction pre as [|p pre IH]; intros s x H Hx; [destruct Hx|].
  destruct s as [|c s]; [discriminate|].
  simpl in H. apply andb_prop in H as [Hc Hs].
  apply Ascii.eqb_eq in Hc. subst c.
  destruct Hx as [<-|Hx]; [now left | right; now apply (IH s)].
Qed.

Lemma split_absent (sep : str) (x : ascii) :
  In x sep -> forall s, ~ In x s -> split sep s = [s].
Proof.
  intros Hx. unfold split.
  induction s as [|c s IH]; intros Hs; [reflexivity|].
  cbn [split_go].
  destruct (startswith (c :: s) sep) eqn:E.
  - exfalso. apply Hs. now apply (startswith_incl sep).
  - rewrite IH; [reflexivity|]. intros H. apply Hs. now right.
Qed.

Lemma replace_absent (old new : str) (x : ascii) :
  In x old -> forall s, ~ In x s -> replace old new s = s.
Proof.
  intros Hx. unfold replace.
  induction s as [|c s IH]; intros Hs; [reflexivity|].
  cbn [replace_go].
  destruct (startswith (c :: s) old) eqn:E.
  - exfalso. apply Hs. now apply (startswith_incl old).
  - rewrite IH; [reflexivity|]. intros H. apply Hs. now right.
Qed.

(** *** Sizes *)

Lemma total_len_app (l1 l2 : list str) :
  total_len (l1 ++ l2) = (total_len l1 + total_len l2)%Z.
Proof.
  induction l1 as [|x l1 IH]; simpl; [reflexivity|]. rewrite IH. lia.
Qed.

Lemma acc_len_snoc (chunks : list str) (cc s : str) :
  acc_len (chunks ++ [cc], s) = (acc_len (chunks, cc) + len s)%Z.
Proof.
  unfold acc_len. cbn [fst snd]. rewrite total_len_app. simpl. lia.
Qed.

Lemma flush_len (a : acc) :
  acc_len (flush a) = acc_len a /\ snd (flush a) = [].
Proof.
  destruct a as [chunks cc]. unfold flush.
  destruct (truthy cc) eqn:E.
  - rewrite acc_len_snoc. change (len []) with 0%Z. split; [lia|reflexivity].
  - apply truthy_false in E. now subst cc.
Qed.

Lemma fold_left_len (k : Z) (step : acc -> str -> acc) :
  (0 <= k)%Z -> adds k step ->
  forall (l : list str) (a : acc),
    (acc_len (fold_left step l a)
     <= acc_len a + total_len l + k * Z.of_nat (List.length l))%Z /\
    (snd a = [] -> l <> [] ->
     (acc_len (fold_left step l a)
      <= acc_len a + total_len l + k * (Z.of_nat (List.length l) - 1))%Z).
Proof.
  intros Hk Hstep. induction l as [|x l IH]; intros a.
  - simpl. split; [lia | congruence].
  - destruct (IH (step a x)) as [IH1 _].
    destruct (Hstep a x) as [H1 H2].
    cbn [fold_left total_len fold_right List.length].
    fold (total_len l). split.
    + lia.
    + intros Hnil _. specialize (H2 Hnil). lia.
Qed.

(** The pieces of [split] and the separators between them make up the
    text. *)
Lemma split_go_len (sep : str) :
  sep <> [] ->
  forall s skip,
    (total_len (split_go sep s skip)
     + len sep * (Z.of_nat (List.length (split_go sep s skip)) - 1)
     = len (skipn skip s))%Z.
Proof.
  intros Hne.
  induction s as [|c s IH]; intros skip; cbn [split_go].
  - rewrite skipn_nil. simpl. change (len []) with 0%Z. lia.
  - destruct skip as [|k]; [|apply IH].
    cbn [skipn].
    destruct (startswith (c :: s) sep) eqn:E.
    + apply startswith_cut in E.
      destruct sep as [|p sep']; [contradiction|].
      cbn [List.length Nat.sub skipn] in *. rewrite Nat.sub_0_r.
      specialize (IH (List.length sep')).
      rewrite E, len_app.
      cbn [total_len fold_right List.length].
      fold (total_len (split_go (p :: sep') s (List.length sep'))).
      change (len []) with 0%Z.
      pose proof (len_nonneg (p :: sep')). lia.
    + specialize (IH 0%nat). cbn [skipn] in IH.
      pose proof (split_go_nonempty sep s 0) as Hq.
      destruct (split_go sep s 0) as [|q qs]; [congruence|].
      cbn [total_len fold_right List.length] in *.
      rewrite !len_cons. lia.
Qed.

Lemma split_len (sep s : str) :
  sep <> [] ->
  (total_len (split sep s)
   + len sep * (Z.of_nat (List.length (split sep s)) - 1) = len s)%Z.
Proof. intros Hne. unfold split. now rewrite split_go_len. Qed.

Lemma replace_go_len (old new : str) :
  old <> [] -> len old = len new ->
  forall s skip, len (replace_go old new s skip) = len (skipn skip s).
Proof.
  intros Hne Hon.
  induction s as [|c s IH]; intros skip; cbn [replace_go].
  - now rewrite skipn_nil.
  - destruct skip as [|k]; [|apply IH].
    cbn [skipn].
    destruct (startswith (c :: s) old) eqn:E.
    + apply startswith_cut in E.
      destruct old as [|p old']; [contradiction|].
      cbn [List.length Nat.sub skipn] in *. rewrite Nat.sub_0_r.
      rewrite len_app, IH, <- Hon, E. now rewrite len_app.
    + rewrite !len_cons, (IH 0%nat). reflexivity.
Qed.

Lemma word_step_adds (max_length : Z) : adds 1 (word_step max_length).
Proof.
  intros [chunks cc] word. unfold word_step.
  destruct (max_length <? len cc + len word + 1)%Z.
  - rewrite acc_len_snoc. split; [lia | intros; lia].
  - destruct (truthy cc) eqn:E; unfold acc_len; cbn [fst snd].
    + rewrite len_app, len_cons. split; [lia|].
      intros ->. discriminate.
    + pose proof (len_nonneg cc). split; [lia | intros; lia].
Qed.

Lemma sentence_step_adds (max_length : Z) : adds 1 (sentence_step max_length).
Proof.
  intros [chunks cc] sentence. unfold sentence_step.
  destruct (max_length <? len cc + len sentence + 1)%Z.
  - destruct (flush_len (chunks, cc)) as [Hl Hnil].
    assert (H : (acc_len (if (max_length <? len sentence)%Z
                          then fold_left (word_step max_length)
                                 (split [sp] sentence) (flush (chunks, cc))
                          else (fst (flush (chunks, cc)), sentence))
                 <= acc_len (chunks, cc) + len sentence)%Z).
    { destruct (max_length <? len sentence)%Z.
      - destruct (fold_left_len 1 (word_step max_length) ltac:(lia)
                    (word_step_adds max_length) (split [sp] sentence)
                    (flush (chunks, cc))) as [_ H].
        specialize (H Hnil (split_go_nonempty _ _ _)).
        pose proof (split_len [sp] sentence ltac:(discriminate)) as Hs.
        change (len [sp]) with 1%Z in Hs. lia.
      - rewrite <- Hl. unfold acc_len. cbn [fst snd].
        rewrite Hnil. change (len []) with 0%Z. lia. }
    split; [lia | intros; lia].
  - destruct (truthy cc) eqn:E; unfold acc_len; cbn [fst snd].
    + rewrite len_app, len_cons. split; [lia|].
      intros ->. discriminate.
    + pose proof (len_nonneg cc). split; [lia | intros; lia].
Qed.

Lemma paragraph_step_adds (max_length : Z) : adds 2 (paragraph_step max_length).
Proof.
  intros [chunks cc] paragraph. unfold paragraph_step.
  destruct (max_length <? len cc + len paragraph + 2)%Z.
  - destruct (flush_len (chunks, cc)) as [Hl Hnil].
    assert (H : (acc_len (if (max_length <? len paragraph)%Z
                          then fold_left (sentence_step max_length)
                                 (split [nl] (replace [dot; sp] [dot; nl] paragraph))
                                 (flush (chunks, cc))
                          else (fst (flush (chunks, cc)), paragraph))
                 <= acc_len (chunks, cc) + len paragraph)%Z).
    { destruct (max_length <? len paragraph)%Z.
      - destruct (fold_left_len 1 (sentence_step max_length) ltac:(lia)
                    (sentence_step_adds max_length)
                    (split [nl] (replace [dot; sp] [dot; nl] paragraph))
                    (flush (chunks, cc))) as [_ H].
        specialize (H Hnil (split_go_nonempty _ _ _)).
        pose proof (split_len [nl] (replace [dot; sp] [dot; nl] paragraph)
                      ltac:(discriminate)) as Hs.
        change (len [nl]) with 1%Z in Hs.
        unfold replace in Hs at 3.
        rewrite (replace_go_len [dot; sp] [dot; nl]) in Hs;
          [|discriminate|reflexivity].
        cbn [skipn] in Hs. lia.
      - rewrite <- Hl. unfold acc_len. cbn [fst snd].
        rewrite Hnil. change (len []) with 0%Z. lia. }
    split; [lia | intros; lia].
  - destruct (truthy cc) eqn:E; unfold acc_len; cbn [fst snd].
    + rewrite len_app, !len_cons. split; [lia|].
      intros ->. discriminate.
    + pose proof (len_nonneg cc). split; [lia | intros; lia].
Qed.

Lemma split_long_message_len (text : str) (max_length : Z) :
  (total_len (split_long_message text max_length) <= len text)%Z.
Proof.
  unfold split_long_message.
  destruct (len text <=? max_length)%Z.
  - simpl. lia.
  - destruct (fold_left_len 2 (paragraph_step max_length) ltac:(lia)
                (paragraph_step_adds max_length) (split [nl; nl] text)
                ([], [])) as [_ H].
    specialize (H eq_refl (split_go_nonempty _ _ _)).
    pose proof (split_len [nl; nl] text ltac:(discriminate)) as Hs.
    change (len [nl; nl]) with 2%Z in Hs.
    destruct (fold_left (paragraph_step max_length) (split [nl; nl] text)
                ([], [])) as [chunks cc].
    unfold acc_len in H. cbn [fst snd] in H.
    change (total_len []) with 0%Z in H. change (len []) with 0%Z in H.
    destruct (truthy cc) eqn:E.
    + rewrite total_len_app. cbn [total_len fold_right]. lia.
    + apply truthy_false in E. subst cc. change (len []) with 0%Z in H. lia.
Qed.

(** *** Chunks appended under a guard *)

Lemma flush_nonempty (a : acc) :
  Forall (fun c => c <> []) (fst a) -> Forall (fun c => c <> []) (fst (flush a)).
Proof.
  destruct a as [chunks cc]. intros H. unfold flush.
  destruct (truthy cc) eqn:E; [|exact H].
  cbn [fst]. apply Forall_snoc; [exact H|]. intros ->. discriminate.
Qed.

Lemma sentence_step_nonempty (max_length : Z) (a : acc) (sentence : str) :
  (len sentence <= max_length)%Z ->
  Forall (fun c => c <> []) (fst a) ->
  Forall (fun c => c <> []) (fst (sentence_step max_length a sentence)).
Proof.
  intros Hfit Ha. destruct a as [chunks cc]. unfold sentence_step.
  destruct (max_length <? len cc + len sentence + 1)%Z.
  - destruct (Z.ltb_spec max_length (len sentence)); [lia|].
    cbn [fst]. now apply flush_nonempty.
  - now destruct (truthy cc).
Qed.

Lemma paragraph_step_nonempty (max_length : Z) (a : acc) (paragraph : str) :
  Forall (fun s => (len s <= max_length)%Z)
    (split [nl] (replace [dot; sp] [dot; nl] paragraph)) ->
  Forall (fun c => c <> []) (fst a) ->
  Forall (fun c => c <> []) (fst (paragraph_step max_length a paragraph)).
Proof.
  intros Hfit Ha. destruct a as [chunks cc]. unfold paragraph_step.
  destruct (max_length <? len cc + len paragraph + 2)%Z.
  - destruct (max_length <? len paragraph)%Z.
    + apply (fold_left_invariant (fun a => Forall (fun c => c <> []) (fst a))).
      * now apply flush_nonempty.
      * intros a' s Hin Ha'. apply sentence_step_nonempty; [|exact Ha'].
        rewrite Forall_forall in Hfit. now apply Hfit.
    + cbn [fst]. now apply flush_nonempty.
  - now destruct (truthy cc).
Qed.

(** *** Further properties of [split_long_message] *)

(** X1.  The words of the chunks, chunk after chunk, are the words of the
    text, where a word is a maximal run of characters other than space
    and newline: no word is cut in two, merged with its neighbour,
    dropped or moved. *)
Theorem words_never_broken (text : str) (max_length : Z) :
  flat_map words (split_long_message text max_length) = words text.
Proof. apply split_long_message_words. Qed.

(** X2.  When the limit is not negative and no word of the text is
    longer than the limit, every chunk is within the limit. *)
Theorem strict_bound_without_long_words (text : str) (max_length : Z) :
  (0 <= max_length)%Z ->
  Forall (fun w => (len w <= max_length)%Z) (words text) ->
  Forall (fun c => (len c <= max_length)%Z)
    (split_long_message text max_length).
Proof.
  intros Hmax Hwords.
  pose proof (chunks_bounded text max_length) as Hb.
  rewrite Forall_forall in *. intros c Hc.
  destruct (Hb c Hc) as [Hle|[Hgt [Hsp Hnl]]]; [exact Hle|].
  assert (Hne : c <> []).
  { intros ->. change (len []) with 0%Z in Hgt. lia. }
  apply Hwords. rewrite <- (split_long_message_words text max_length).
  apply in_flat_map. exists c. split; [exact Hc|].
  rewrite words_atomic by assumption. now left.
Qed.

Lemma strict_bound_without_long_words_witness :
  (0 <= 8)%Z /\
  Forall (fun w => (len w <= 8)%Z) (words (lit "one two.  three four five")) /\
  Forall (fun c => (len c <= 8)%Z)
    (split_long_message (lit "one two.  three four five") 8).
Proof.
  assert (H0 : (0 <= 8)%Z) by lia.
  assert (Hw : Forall (fun w => (len w <= 8)%Z)
                 (words (lit "one two.  three four five")))
    by (vm_compute; repeat constructor; discriminate).
  split; [exact H0|]. split; [exact Hw|].
  exact (strict_bound_without_long_words _ _ H0 Hw).
Defined.

(** X3.  Every append of the paragraph loop, of the sentence loop and of
    the final flush is guarded: for a non-empty text none of whose
    sentences is longer than the limit, no chunk is empty. *)
Theorem no_empty_chunk_without_long_sentence (text : str) (max_length : Z) :
  text <> [] ->
  Forall (fun s => (len s <= max_length)%Z) (sentences text) ->
  Forall (fun c => c <> []) (split_long_message text max_length).
Proof.
  intros Hne Hfit. unfold split_long_message.
  destruct (len text <=? max_length)%Z; [now repeat constructor|].
  assert (H : Forall (fun c => c <> [])
                (fst (fold_left (paragraph_step max_length)
                        (split [nl; nl] text) ([], [])))).
  { apply (fold_left_invariant (fun a => Forall (fun c => c <> []) (fst a)));
      [constructor|].
    intros a p Hp Ha. apply paragraph_step_nonempty; [|exact Ha].
    rewrite Forall_forall in *. intros s Hs. apply Hfit.
    unfold sentences. apply in_flat_map. now exists p. }
  destruct (fold_left (paragraph_step max_length) (split [nl; nl] text)
              ([], [])) as [chunks cc].
  cbn [fst] in H.
  destruct (truthy cc) eqn:E; [|exact H].
  apply Forall_snoc; [exact H|]. intros ->. discriminate.
Qed.

Lemma no_empty_chunk_without_long_sentence_witness :
  lit "Hi there. How are you?" <> [] /\
  Forall (fun s => (len s <= 12)%Z) (sentences (lit "Hi there. How are you?")) /\
  Forall (fun c => c <> [])
    (split_long_message (lit "Hi there. How are you?") 12).
Proof.
  assert (Hne : lit "Hi there. How are you?" <> []) by discriminate.
  assert (Hs : Forall (fun s => (len s <= 12)%Z)
                 (sentences (lit "Hi there. How are you?")))
    by (vm_compute; repeat constructor; discriminate).
  split; [exact Hne|]. split; [exact Hs|].
  exact (no_empty_chunk_without_long_sentence _ _ Hne Hs).
Defined.

(** X4.  A text without space and without newline that is longer than a
    non-negative limit comes back as two chunks: the empty string, then
    the whole text. *)
Theorem unbreakable_text_chunks (text : str) (max_length : Z) :
  (0 <= max_length)%Z -> (max_length < len text)%Z ->
  ~ In sp text -> ~ In nl text ->
  split_long_message text max_length = [[]; text].
Proof.
  intros H0 Hlong Hsp Hnl. unfold split_long_message.
  destruct (Z.leb_spec (len text) max_length); [lia|].
  rewrite (split_absent [nl; nl] nl) by (assumption || now left).
  cbn [fold_left]. unfold paragraph_step.
  change (len []) with 0%Z.
  destruct (Z.ltb_spec max_length (0 + len text + 2)); [|lia].
  destruct (Z.ltb_spec max_length (len text)); [|lia].
  rewrite (replace_absent [dot; sp] [dot; nl] sp)
    by (assumption || (right; now left)).
  rewrite (split_absent [nl] nl) by (assumption || now left).
  cbn [fold_left flush truthy]. unfold sentence_step.
  change (len []) with 0%Z.
  destruct (Z.ltb_spec max_length (0 + len text + 1)); [|lia].
  destruct (Z.ltb_spec max_length (len text)); [|lia].
  rewrite (split_absent [sp] sp) by (assumption || now left).
  cbn [fold_left flush truthy].
  rewrite word_step_empty_accumulator by lia.
  destruct text as [|c text]; [change (len []) with 0%Z in Hlong; lia|].
  reflexivity.
Qed.

Lemma unbreakable_text_chunks_witness :
  (0 <= 3)%Z /\ (3 < len (lit "https://t.me/x"))%Z /\
  ~ In sp (lit "https://t.me/x") /\ ~ In nl (lit "https://t.me/x") /\
  split_long_message (lit "https://t.me/x") 3 = [[]; lit "https://t.me/x"].
Proof.
  assert (H0 : (0 <= 3)%Z) by lia.
  assert (H1 : (3 < len (lit "https://t.me/x"))%Z) by reflexivity.
  assert (Hsp : ~ In sp (lit "https://t.me/x"))
    by (simpl; intros H; repeat (destruct H as [H|H]; [discriminate|]); exact H).
  assert (Hnl : ~ In nl (lit "https://t.me/x"))
    by (simpl; intros H; repeat (destruct H as [H|H]; [discriminate|]); exact H).
  repeat (split; [assumption|]).
  exact (unbreakable_text_chunks _ _ H0 H1 Hsp Hnl).
Defined.

Lemma content_concat_nonempty (l : list str) :
  content (concat l) <> [] -> exists c, In c l /\ content c <> [].
Proof.
  induction l as [|x l IH]; simpl; [congruence|].
  rewrite content_app. intros H.
  destruct (content x) as [|y ys] eqn:E.
  - destruct (IH H) as (c & Hc & Hcc). exists c. split; [now right|exact Hcc].
  - exists x. split; [now left|]. rewrite E. discriminate.
Qed.

(** X5.  A text that holds a character other than whitespace is never
    lost: some chunk returned holds such a character, so the list of
    chunks is not empty. *)
Theorem visible_text_is_sent (text : str) (max_length : Z) :
  content text <> [] ->
  exists c, In c (split_long_message text max_length) /\ content c <> [].
Proof.
  intros H. apply content_concat_nonempty.
  now rewrite split_long_message_flat.
Qed.

Lemma visible_text_is_sent_witness :
  content (lit "  ok") <> [] /\
  exists c, In c (split_long_message (lit "  ok") 1) /\ content c <> [].
Proof.
  assert (H : content (lit "  ok") <> []) by discriminate.
  split; [exact H|]. exact (visible_text_is_sent _ 1 H).
Defined.

(** X6.  The chunks together are never longer than the text: joining and
    cutting put back at most the separators they took. *)
Theorem chunks_total_length (text : str) (max_length : Z) :
  (total_len (split_long_message text max_length) <= len text)%Z.
Proof. apply split_long_message_len. Qed.

End SegmenterWords.

(** ** Further properties of the selector *)

Module SelectorMore.
Import PyStr Selector SelectorSpec Instructions SelectorProofs.

Local Open Scope Q_scope.

Lemma step_records (cfg : config) (message_content : str)
    (ctx : option context) (w w' : world) (r : string) :
  DYNAMIC_MESSAGE_LENGTH_ENABLED cfg = true ->
  valid_state (self w) ->
  get_response_type cfg message_content ctx w = (Ok r, w') ->
  In r response_types /\
  last_response_type (self w') = Some r /\
  valid_state (self w').
Proof.
  intros Hen Hv Heq.
  destruct (get_response_type_step cfg message_content ctx w Hen Hv)
    as [(r1 & w1 & Heq1 & Hr & Hs)|(w1 & Heq1 & _)];
    rewrite Heq1 in Heq; [|discriminate].
  injection Heq as <- <-.
  split; [exact Hr|]. split.
  - rewrite Hs. unfold update_tracking.
    destruct (option_string_eqb (Some r1) (last_response_type (self w))) eqn:E;
      [|reflexivity].
    now apply option_string_eqb_true in E.
  - rewrite Hs. now apply update_tracking_valid.
Qed.

(** X7.  With dynamic length enabled and from a valid state, the class a
    call returns is one of the five and is the class the manager holds
    in [last_response_type] afterwards; the state stays valid. *)
Theorem returned_class_is_recorded (cfg : config) (message_content : str)
    (ctx : option context) (w w' : world) (r : string) :
  DYNAMIC_MESSAGE_LENGTH_ENABLED cfg = true ->
  valid_state (self w) ->
  get_response_type cfg message_content ctx w = (Ok r, w') ->
  In r response_types /\
  last_response_type (self w') = Some r /\
  valid_state (self w').
Proof. apply step_records. Qed.

Lemma returned_class_is_recorded_witness :
  DYNAMIC_MESSAGE_LENGTH_ENABLED default_config = true /\
  valid_state (self (fresh 0.5)) /\
  In "medium"%string response_types /\
  last_response_type
    (self (snd (get_response_type default_config (lit "hi") None (fresh 0.5))))
  = Some "medium"%string.
Proof.
  assert (Hv : valid_state (self (fresh 0.5)))
    by (split; [exact I | discriminate]).
  assert (Heq : get_response_type default_config (lit "hi") None (fresh 0.5)
                = (Ok "medium"%string,
                   snd (get_response_type default_config (lit "hi") None
                          (fresh 0.5))))
    by (vm_compute; reflexivity).
  destruct (returned_class_is_recorded default_config (lit "hi") None
              (fresh 0.5) _ _ eq_refl Hv Heq) as (H1 & H2 & _).
  split; [reflexivity|]. split; [exact Hv|]. split; [exact H1 | exact H2].
Defined.

Lemma instruction_not_fallback (t : string) :
  In t response_types ->
  get_response_length_instructions t <> fallback_instruction.
Proof.
  intros Hin. simpl in Hin.
  repeat (destruct Hin as [<-|Hin]; [vm_compute; discriminate|]).
  destruct Hin.
Qed.

(** X9.  [format_response_length_for_prompt] from a valid state: with the
    switch off it returns the empty string and touches nothing; with
    the switch on it either stops at the division by zero, the manager
    untouched, or returns the fragment rendered from the instruction of
    the class now held in [last_response_type], which is one of the five
    instructions and never the fallback text. *)
Theorem prompt_fragment_outcome (cfg : config) (message_content : str)
    (ctx : option context) (w : world) :
  valid_state (self w) ->
  (DYNAMIC_MESSAGE_LENGTH_ENABLED cfg = false /\
   format_response_length_for_prompt cfg message_content ctx w = (Ok [], w)) \/
  (DYNAMIC_MESSAGE_LENGTH_ENABLED cfg = true /\
   exists w' t,
     format_response_length_for_prompt cfg message_content ctx w
     = (Ok (render (get_response_length_instructions t)), w') /\
     In t response_types /\
     last_response_type (self w') = Some t /\
     get_response_length_instructions t <> fallback_instruction) \/
  (DYNAMIC_MESSAGE_LENGTH_ENABLED cfg = true /\
   exists w',
     format_response_length_for_prompt cfg message_content ctx w
     = (Raise ZeroDivisionError, w') /\
     self w' = self w).
Proof.
  intros Hv. unfold format_response_length_for_prompt.
  destruct (DYNAMIC_MESSAGE_LENGTH_ENABLED cfg) eqn:Hen; cbn [negb].
  - right.
    destruct (get_response_type_step cfg message_content ctx w Hen Hv)
      as [(r & w' & Heq & Hr & Hs)|(w' & Heq & Hs)].
    + left. split; [reflexivity|]. exists w', r.
      unfold bind. rewrite Heq. split; [reflexivity|].
      destruct (step_records cfg message_content ctx w w' r
                  Hen Hv Heq) as (_ & Hlast & _).
      split; [exact Hr|]. split; [exact Hlast|].
      now apply instruction_not_fallback.
    + right. split; [reflexivity|]. exists w'.
      unfold bind. rewrite Heq. now split.
  - left. now split.
Qed.

Lemma prompt_fragment_outcome_witness :
  valid_state (self (fresh 0.5)) /\
  exists w' t,
    format_response_length_for_prompt default_config (lit "hi") None (fresh 0.5)
    = (Ok (render (get_response_length_instructions t)), w') /\
    In t response_types.
Proof.
  assert (Hv : valid_state (self (fresh 0.5))) by (split; [exact I | discriminate]).
  split; [exact Hv|].
  destruct (prompt_fragment_outcome default_config (lit "hi") None (fresh 0.5) Hv)
    as [[H _]|[(_ & w' & t & Heq & Hin & _)|(_ & w' & Heq & _)]].
  - exfalso. vm_compute in H. discriminate H.
  - exists w', t. split; [exact Heq | exact Hin].
  - exfalso.
    assert (E : fst (format_response_length_for_prompt default_config
                       (lit "hi") None (fresh 0.5))
                = Raise ZeroDivisionError) by (rewrite Heq; reflexivity).
    vm_compute in E. discriminate E.
Defined.

End SelectorMore.

(** ** Properties of [enhance_search_queries] *)

Module SelfAwarenessProofs.
Import PyStr Selector SelfAwareness.

Lemma append_loop {A B : Type} (f : A -> B) :
  forall (l : list A) (init : list B),
    fold_left (fun out x => out ++ [f x]) l init = init ++ map f l.
Proof.
  induction l as [|x l IH]; intros init; simpl.
  - now rewrite app_nil_r.
  - rewrite IH, <- app_assoc. reflexivity.
Qed.

Lemma enhance_search_queries_on (queries : list str) :
  enhance_search_queries true queries = map enhance queries.
Proof.
  unfold enhance_search_queries. cbn [negb].
  exact (append_loop enhance queries []).
Qed.

Lemma startswith_app (sub : str) :
  forall a b, startswith a sub = true -> startswith (a ++ b) sub = true.
Proof.
  induction sub as [|p sub IH]; intros a b H; [reflexivity|].
  destruct a as [|c a]; [discriminate|].
  simpl in *. apply andb_prop in H as [Hc Ha].
  rewrite Hc. now apply IH.
Qed.

Lemma startswith_self (sub b : str) : startswith (sub ++ b) sub = true.
Proof.
  induction sub as [|p sub IH]; [reflexivity|].
  simpl. now rewrite Ascii.eqb_refl, IH.
Qed.

Lemma contains_app_l (sub a b : str) :
  contains sub a = true -> contains sub (a ++ b) = true.
Proof.
  induction a as [|c a IH]; intros H.
  - simpl in H. rewrite orb_false_r in H.
    destruct sub as [|p sub]; [|discriminate].
    destruct b; reflexivity.
  - cbn [contains] in H. apply orb_prop in H as [H|H].
    + pose proof (startswith_app sub (c :: a) b H) as H'.
      cbn [app] in H'. cbn [app contains]. now rewrite H'.
    + cbn [app contains]. rewrite (IH H). apply orb_true_r.
Qed.

Lemma contains_app_r (sub a b : str) :
  contains sub b = true -> contains sub (a ++ b) = true.
Proof.
  intros H. induction a as [|c a IH]; [exact H|].
  cbn [app contains]. rewrite IH. apply orb_true_r.
Qed.

Lemma lower_app (a b : str) : lower (a ++ b) = lower a ++ lower b.
Proof. apply map_app. Qed.

Lemma about_self_suffix (query : str) :
  about_self (query ++ self_suffix) = true.
Proof.
  unfold about_self. apply existsb_exists. exists (lit "nyxie").
  split; [simpl; tauto|].
  rewrite lower_app. apply contains_app_r. reflexivity.
Qed.

(** X10.  [enhance_search_queries] returns one query per query given, in
    the same order; each is the original query, or the original query
    followed by the fixed self-description; with the switch off the
    list is returned unchanged. *)
Theorem enhanced_queries_extend_originals (flag : bool) (queries : list str) :
  List.length (enhance_search_queries flag queries) = List.length queries /\
  Forall2 (fun query enhanced =>
             enhanced = query \/ enhanced = query ++ self_suffix)
    queries (enhance_search_queries flag queries) /\
  enhance_search_queries false queries = queries.
Proof.
  split; [|split; [|reflexivity]]; destruct flag.
  - rewrite enhance_search_queries_on. apply length_map.
  - reflexivity.
  - rewrite enhance_search_queries_on.
    induction queries as [|q queries IH]; simpl; constructor; [|exact IH].
    unfold enhance. destruct (about_self q); [now right | now left].
  - unfold enhance_search_queries. cbn [negb].
    induction queries; constructor; [now left | assumption].
Qed.

(** X11.  Enhancing is not idempotent: the text appended names Nyxie, so
    a query enhanced once is enhanced again by a second pass, which
    appends the self-description a second time; the other queries stay
    as they are. *)
Theorem enhancing_twice_appends_twice (queries : list str) :
  enhance_search_queries true (enhance_search_queries true queries)
  = map (fun query =>
           if about_self query
           then (query ++ self_suffix) ++ self_suffix
           else query) queries.
Proof.
  rewrite !enhance_search_queries_on, map_map.
  apply map_ext. intros q. unfold enhance at 2.
  destruct (about_self q) eqn:E.
  - unfold enhance. now rewrite about_self_suffix.
  - unfold enhance. now rewrite E.
Qed.

(** X12.  The terms are matched as substrings, whatever the case: every
    query in which the letters "ai" follow each other, as in "rain", is
    taken to be about the bot and gets the self-description appended. *)
Theorem substring_ai_is_enhanced (a b : str) :
  enhance_search_queries true [a ++ lit "ai" ++ b]
  = [(a ++ lit "ai" ++ b) ++ self_suffix] /\
  enhance_search_queries true [a ++ lit "AI" ++ b]
  = [(a ++ lit "AI" ++ b) ++ self_suffix].
Proof.
  rewrite !enhance_search_queries_on. cbn [map]. unfold enhance.
  assert (H : forall x, lower x = lit "ai" ->
                        about_self (a ++ x ++ b) = true).
  { intros x Hx. unfold about_self. apply existsb_exists. exists (lit "ai").
    split; [simpl; tauto|].
    rewrite !lower_app, Hx. apply contains_app_r, contains_app_l.
    reflexivity. }
  now rewrite !H by reflexivity.
Qed.

End SelfAwarenessProofs.

(** ** Properties of [combine_search_results] *)

Module SearchResultsProofs.
Import PyStr Selector SearchResults SegmenterProofs.

Lemma combine_loop_complete {C : Type} :
  forall (rs : list (search_result C)) (t : str) (cs : list C),
    Forall complete rs ->
    combine_loop rs t cs
    = Ok (t ++ concat (map (fun x => x ++ [nl; nl]) (texts rs)),
          cs ++ all_citations_of rs).
Proof.
  induction rs as [|r rs IH]; intros t cs H.
  - simpl. now rewrite !app_nil_r.
  - inversion H as [|? ? [Ht Hc] Hrs]; subst.
    destruct r as [[x|] [ys|]]; cbn [text citations] in *; try congruence.
    cbn [combine_loop text citations]. rewrite IH by exact Hrs.
    unfold texts, all_citations_of. cbn [flat_map text citations map concat app].
    now rewrite <- !app_assoc.
Qed.

Lemma combine_loop_incomplete {C : Type} :
  forall (rs : list (search_result C)) (t : str) (cs : list C),
    Exists (fun r => ~ complete r) rs ->
    combine_loop rs t cs = Raise KeyError.
Proof.
  induction rs as [|r rs IH]; intros t cs H; [inversion H|].
  destruct r as [[x|] [ys|]]; cbn [combine_loop text citations];
    try reflexivity.
  apply IH. inversion H as [? ? Hr|? ? Hrs]; subst; [|exact Hrs].
  exfalso. apply Hr. split; discriminate.
Qed.

Lemma complete_dec {C : Type} (rs : list (search_result C)) :
  Forall complete rs \/ Exists (fun r => ~ complete r) rs.
Proof.
  induction rs as [|r rs [IH|IH]].
  - left. constructor.
  - destruct r as [[x|] [ys|]].
    + left. constructor; [split; discriminate | exact IH].
    + right. left. intros [_ H]. now apply H.
    + right. left. intros [H _]. now apply H.
    + right. left. intros [H _]. now apply H.
  - right. now right.
Qed.

(** *** [strip] *)

Lemma lstrip_head (s : str) :
  forall c rest, lstrip s = c :: rest -> isspace c = false.
Proof.
  induction s as [|x s IH]; intros c rest H; [discriminate|].
  simpl in H. destruct (isspace x) eqn:E.
  - now apply (IH c rest).
  - injection H as <- _. exact E.
Qed.

Lemma lstrip_keeps_last (c : ascii) :
  isspace c = false ->
  forall y, exists y', lstrip (y ++ [c]) = y' ++ [c].
Proof.
  intros Hc. induction y as [|x y IH].
  - exists []. simpl. now rewrite Hc.
  - simpl. destruct (isspace x).
    + exact IH.
    + now exists (x :: y).
Qed.

Lemma content_lstrip (s : str) : content (lstrip s) = content s.
Proof.
  induction s as [|x s IH]; [reflexivity|].
  cbn [lstrip]. destruct (isspace x) eqn:E; [|reflexivity].
  rewrite IH. unfold content. cbn [filter]. now rewrite E.
Qed.

Lemma content_rev (s : str) : content (rev s) = rev (content s).
Proof.
  induction s as [|x s IH]; [reflexivity|].
  cbn [rev]. rewrite content_app, IH. unfold content. cbn [filter].
  destruct (negb (isspace x)); cbn [rev]; [reflexivity | now rewrite app_nil_r].
Qed.

Lemma content_strip (s : str) : content (strip s) = content s.
Proof.
  unfold strip, rstrip.
  now rewrite content_rev, content_lstrip, content_rev, rev_involutive,
    content_lstrip.
Qed.

Lemma strip_last (s : str) :
  forall c rest, rev (strip s) = c :: rest -> isspace c = false.
Proof.
  intros c rest H. unfold strip, rstrip in H. rewrite rev_involutive in H.
  exact (lstrip_head _ c rest H).
Qed.

Lemma strip_head (s : str) :
  forall c rest, strip s = c :: rest -> isspace c = false.
Proof.
  intros c rest H. unfold strip, rstrip in H.
  destruct (lstrip s) as [|x xs] eqn:E; [discriminate|].
  pose proof (lstrip_head s x xs E) as Hx.
  simpl rev in H at 2.
  destruct (lstrip_keeps_last x Hx (rev xs)) as (y' & Hy).
  rewrite Hy, rev_app_distr in H. simpl in H.
  injection H as <- _. exact Hx.
Qed.

(** X13.  [combine_search_results] raises [KeyError] exactly when some
    result lacks its ["text"] or its ["citations"]; otherwise it returns
    all the citations of all the results, in order. *)
Theorem combine_citations_or_key_error {C : Type}
    (search_results : list (search_result C)) :
  (Forall complete search_results /\
   exists combined_text,
     combine_search_results search_results
     = Ok (combined_text, all_citations_of search_results)) \/
  (Exists (fun r => ~ complete r) search_results /\
   combine_search_results search_results = Raise KeyError).
Proof.
  unfold combine_search_results.
  destruct (complete_dec search_results) as [H|H].
  - left. split; [exact H|].
    rewrite (combine_loop_complete _ _ _ H). eexists. reflexivity.
  - right. split; [exact H|].
    now rewrite (combine_loop_incomplete _ _ _ H).
Qed.

(** X14.  When every result has both keys, the combined text holds the
    non-whitespace characters of the texts of the results, in order,
    and neither starts nor ends with a whitespace character. *)
Theorem combined_text_is_stripped {C : Type}
    (search_results : list (search_result C)) :
  Forall complete search_results ->
  exists combined_text cs,
    combine_search_results search_results = Ok (combined_text, cs) /\
    content combined_text = concat (map content (texts search_results)) /\
    (forall c rest, combined_text = c :: rest -> isspace c = false) /\
    (forall c rest, rev combined_text = c :: rest -> isspace c = false).
Proof.
  intros H. unfold combine_search_results.
  rewrite (combine_loop_complete _ _ _ H).
  eexists _, _. split; [reflexivity|]. split; [|split].
  - rewrite content_strip. cbn [app].
    induction (texts search_results) as [|t ts IH]; [reflexivity|].
    cbn [map concat]. rewrite !content_app, IH.
    change (content [nl; nl]) with (@nil ascii). now rewrite app_nil_r.
  - apply strip_head.
  - apply strip_last.
Qed.

Lemma combined_text_is_stripped_witness :
  Forall complete
    [MkResult (Some (lit " first hit ")) (Some [1%nat; 2%nat]);
     MkResult (Some (lit "second")) (Some [3%nat])] /\
  exists combined_text cs,
    combine_search_results
      [MkResult (Some (lit " first hit ")) (Some [1%nat; 2%nat]);
       MkResult (Some (lit "second")) (Some [3%nat])]
    = Ok (combined_text, cs) /\
    content combined_text = lit "firsthitsecond".
Proof.
  assert (H : Forall (@complete nat)
                [MkResult (Some (lit " first hit ")) (Some [1%nat; 2%nat]);
                 MkResult (Some (lit "second")) (Some [3%nat])])
    by (repeat constructor; discriminate).
  split; [exact H|].
  destruct (combined_text_is_stripped _ H) as (t & cs & Heq & Hc & _).
  exists t, cs. split; [exact Heq | exact Hc].
Defined.

End SearchResultsProofs.

(** ** The variety and the randomness stage, item by item *)

Module StagesProofs.
Import PyStr Selector SelectorSpec Stages SelectorProofs.

Local Open Scope Q_scope.

Section KeyFactors.

Variable ok : string -> Q -> Prop.
Hypothesis ok_one : forall k, ok k 1.
Hypothesis ok_mul : forall k f g, ok k f -> ok k g -> ok k (f * g).

Lemma scaled_by_refl (p : dict) : scaled_by ok p p.
Proof.
  induction p as [|kv p IH]; constructor; [|exact IH].
  split; [reflexivity|]. exists 1. split; [apply ok_one | ring].
Qed.

Lemma scaled_by_trans (p1 p2 p3 : dict) :
  scaled_by ok p1 p2 -> scaled_by ok p2 p3 -> scaled_by ok p1 p3.
Proof.
  intros H12. revert p3.
  induction H12 as [|a b p1 p2 (Hk & f & Hf & Hv) _ IH]; intros p3 H23;
    inversion H23 as [|b' c p2' p3' (Hk' & g & Hg & Hv') H23']; subst.
  - constructor.
  - constructor; [|now apply IH].
    split; [congruence|].
    exists (f * g). split.
    + apply ok_mul; [exact Hf | now rewrite <- Hk].
    + rewrite Hv', Hv. ring.
Qed.

Lemma scaled_by_keys (p0 p : dict) : scaled_by ok p0 p -> keys p = keys p0.
Proof.
  induction 1 as [|a b p0 p (Hk & _) _ IH]; simpl; [reflexivity|].
  now rewrite Hk, IH.
Qed.

Lemma setitem_scaled_by (k : string) (f : Q) :
  ok k f ->
  forall p, In k (keys p) ->
    exists v, getitem k p = Some v /\ scaled_by ok p (setitem k (v * f) p).
Proof.
  intros Hf. induction p as [|[k' v'] p IH]; intros Hin; [destruct Hin|].
  simpl. destruct (String.eqb k' k) eqn:E.
  - apply String.eqb_eq in E. subst k'.
    exists v'. split; [reflexivity|]. constructor; [|apply scaled_by_refl].
    split; [reflexivity|]. exists f. split; [exact Hf|reflexivity].
  - apply String.eqb_neq in E.
    destruct Hin as [Hk|Hin]; [simpl in Hk; congruence|].
    destruct (IH Hin) as (v & Hg & Hs). exists v. split; [exact Hg|].
    constructor; [|exact Hs].
    split; [reflexivity|]. exists 1. split; [apply ok_one | simpl; ring].
Qed.

Lemma returns_mul_item_by (p0 p : dict) (k : string) (f : Q) (w : world) :
  scaled_by ok p0 p -> In k (keys p0) -> ok k f ->
  returns (mul_item k f p) w (scaled_by ok p0).
Proof.
  intros Hs Hin Hf.
  rewrite <- (scaled_by_keys p0 p Hs) in Hin.
  destruct (setitem_scaled_by k f Hf p Hin) as (v & Hg & Hs').
  unfold mul_item. rewrite Hg. apply returns_ret.
  eapply scaled_by_trans; eassumption.
Qed.

End KeyFactors.

(** *** The variety stage *)

Lemma boost_ok_one (last k : string) : boost_ok last k 1.
Proof.
  unfold boost_ok. destruct (String.eqb k last); [reflexivity | apply Qle_refl].
Qed.

Lemma boost_ok_mul (last k : string) (f g : Q) :
  boost_ok last k f -> boost_ok last k g -> boost_ok last k (f * g).
Proof.
  unfold boost_ok. destruct (String.eqb k last); intros Hf Hg.
  - rewrite Hf, Hg. reflexivity.
  - nra.
Qed.

Lemma response_types_nodup : NoDup response_types.
Proof.
  repeat constructor; simpl; intros H;
    repeat (destruct H as [H|H]; [discriminate H|]); exact H.
Qed.

Lemma damp_item (last : string) (f : Q) :
  forall p, NoDup (keys p) -> In last (keys p) ->
    exists v, getitem last p = Some v /\
              damped_only last f p (setitem last (v * f) p).
Proof.
  induction p as [|[k v] p IH]; intros Hnd Hin; [destruct Hin|].
  simpl in Hnd. inversion Hnd as [|? ? Hk Hnd']; subst.
  simpl. destruct (String.eqb k last) eqn:E.
  - apply String.eqb_eq in E. subst k.
    exists v. split; [reflexivity|]. constructor.
    + split; [reflexivity|]. simpl. now rewrite String.eqb_refl.
    + clear IH Hin Hnd Hnd'. induction p as [|[k2 v2] p IH];
        constructor.
      * split; [reflexivity|]. simpl.
        destruct (String.eqb_spec k2 last) as [->|_]; [|reflexivity].
        exfalso. apply Hk. now left.
      * apply IH. intros H. apply Hk. now right.
  - destruct Hin as [Hin|Hin].
    + simpl in Hin. subst k. rewrite String.eqb_refl in E. discriminate.
    + destruct (IH Hnd' Hin) as (v' & Hg & Hd).
      exists v'. split; [exact Hg|]. constructor; [|exact Hd].
      split; [reflexivity|]. simpl. now rewrite E.
Qed.

Lemma damped_only_keys (last : string) (f : Q) (p p' : dict) :
  damped_only last f p p' -> keys p' = keys p.
Proof.
  induction 1 as [|a b p p' (Hk & _) _ IH]; simpl; [reflexivity|].
  now rewrite Hk, IH.
Qed.

Lemma compose_damped (last : string) (count : Z) (p p1 p' : dict) :
  nonneg p ->
  damped_only last (reduction_factor count) p p1 ->
  scaled_by (boost_ok last) p1 p' ->
  damped last count p p'.
Proof.
  intros Hn H1. revert p'.
  induction H1 as [|a b p p1 (Hk & Hv) _ IH]; intros p' H2;
    inversion H2 as [|b' c p1' p'' (Hk' & f & Hf & Hv') H2']; subst.
  - constructor.
  - inversion Hn as [|? ? Ha Hn']; subst.
    constructor; [|now apply IH].
    split; [congruence|].
    unfold boost_ok in Hf. rewrite Hk in Hf.
    destruct (String.eqb (fst a) last).
    + rewrite Hv', Hv, Hf. ring.
    + rewrite Hv', Hv. nra.
Qed.

Lemma truthy_response_type (last : string) :
  In last response_types -> truthy_type (Some last) = true.
Proof.
  intros H. simpl in H.
  repeat (destruct H as [<-|H]; [reflexivity|]). destruct H.
Qed.

Lemma list_remove_others (last : string) :
  In last response_types ->
  exists others, list_remove last response_types = Some others /\
                 others <> [] /\
                 forall x, In x others ->
                           In x response_types /\ String.eqb x last = false.
Proof.
  intros Hin. simpl in Hin.
  repeat (destruct Hin as [<-|Hin];
          [eexists; split; [reflexivity|];
           split; [discriminate|];
           intros x Hx; simpl in Hx;
           repeat (destruct Hx as [<-|Hx]; [split; [simpl; tauto|reflexivity]|]);
           destruct Hx|]).
  destruct Hin.
Qed.

Ltac boost_item last :=
  eapply (returns_mul_item_by (boost_ok last) (boost_ok_one last)
            (boost_ok_mul last));
  [ eassumption | in_keys | unfold boost_ok; simpl; discriminate ].

Ltac boost_stage last p0 :=
  cbv beta;
  lazymatch goal with
  | |- returns (bind _ _) _ _ =>
      apply (returns_bind _ _ _ (scaled_by (boost_ok last) p0));
      [ boost_stage last p0 | intros ? ? ? ?; boost_stage last p0 ]
  | |- returns (mul_item _ _ _) _ _ => boost_item last
  | |- returns (ret _) _ _ => apply returns_ret; assumption
  end.

Lemma push_away_boosts (last : string) (p0 p : dict) (w : world) :
  In last response_types ->
  keys p0 = response_types -> scaled_by (boost_ok last) p0 p ->
  returns (push_away last p) w (scaled_by (boost_ok last) p0).
Proof.
  intros Hin Hk Hs. simpl in Hin.
  destruct Hin as [<-|[<-|[<-|[<-|[<-|[]]]]]];
    unfold push_away; simpl mem; cbv iota;
    try (change (String.eqb _ "medium") with false; cbv iota);
    try (change (String.eqb "medium" "medium") with true; cbv iota);
    lazymatch goal with
    | |- returns (bind _ _) _ _ => idtac
    end.
  all: match goal with
       | |- context [boost_ok ?l] => boost_stage l p0
       end.
Qed.

(** X15.  The variety stage, when the class [last] was repeated (count
    above 0), on non-negative weights: the weight of [last] is
    multiplied by [min(0.3, 0.8 ** count)] and by nothing else, and no
    other weight is lowered, whatever the draws; the manager's
    attributes are not touched. *)
Theorem variety_damps_previous_class (p : dict) (w : world) (last : string) :
  keys p = response_types -> nonneg p ->
  last_response_type (self w) = Some last ->
  In last response_types ->
  (0 < consecutive_same_type_count (self w))%Z ->
  returns (_adjust_probabilities_for_variety p) w
    (damped last (consecutive_same_type_count (self w)) p).
Proof.
  intros Hk Hn Hlast Hin Hcount. unfold _adjust_probabilities_for_variety.
  apply (returns_bind _ _ _ (fun s => s = self w)); [apply returns_get_self|].
  intros s w1 Hf1 ->. rewrite Hlast.
  rewrite (truthy_response_type last Hin), andb_true_r.
  apply Z.ltb_lt in Hcount as Hc. rewrite Hc.
  set (count := consecutive_same_type_count (self w)) in *.
  destruct (damp_item last (reduction_factor count) p) as (v & Hg & Hd);
    [rewrite Hk; apply response_types_nodup | now rewrite Hk |].
  pose proof (damped_only_keys _ _ _ _ Hd) as Hk1. rewrite Hk in Hk1.
  apply (returns_weaken _ _ (scaled_by (boost_ok last)
                                (setitem last (v * reduction_factor count) p)));
    [|intros p' Hs; exact (compose_damped last count p _ p' Hn Hd Hs)].
  unfold mul_item at 1. rewrite Hg. unfold bind at 1, ret at 1.
  set (p1 := setitem last (v * reduction_factor count) p) in *.
  assert (Hs1 : scaled_by (boost_ok last) p1 p1)
    by (apply scaled_by_refl, boost_ok_one).
  apply (returns_bind _ _ _ (fun _ : bool => True)).
  { destruct (1 <=? count)%Z.
    - eapply returns_bind; [apply returns_random|].
      intros; now apply returns_ret.
    - now apply returns_ret. }
  intros force w3 Hf3 _.
  apply (returns_bind _ _ _ (scaled_by (boost_ok last) p1)).
  { destruct force; [now apply push_away_boosts | now apply returns_ret]. }
  intros p2 w4 Hf4 Hs2.
  eapply returns_bind; [apply returns_random|].
  intros u w5 Hf5 _. cbv beta.
  destruct (Qltb u 0.2); [|now apply returns_ret].
  rewrite (scaled_by_keys _ p1 p2 Hs2), Hk1.
  destruct (list_remove_others last Hin) as (others & -> & Hne & Hsub).
  apply (returns_bind _ _ _ (fun x => In x others)).
  { now apply returns_choice. }
  intros x w6 Hf6 Hx. destruct (Hsub x Hx) as [Hx1 Hx2].
  eapply (returns_mul_item_by (boost_ok last) (boost_ok_one last)
            (boost_ok_mul last));
    [eassumption | now rewrite Hk1 |].
  unfold boost_ok. rewrite Hx2. discriminate.
Qed.

Lemma variety_damps_previous_class_witness :
  returns (_adjust_probabilities_for_variety (base_probabilities default_config))
    (repeated "medium" 2 0.1)
    (damped "medium" 2 (base_probabilities default_config)).
Proof.
  apply (variety_damps_previous_class (base_probabilities default_config)
           (repeated "medium" 2 0.1) "medium").
  - reflexivity.
  - repeat constructor; discriminate.
  - reflexivity.
  - simpl. tauto.
  - reflexivity.
Defined.

(** *** The randomness stage *)

Lemma getitem_app_fresh (k : string) (v : Q) (todo : dict) :
  forall done, ~ In k (keys done) ->
    getitem k (done ++ (k, v) :: todo) = Some v.
Proof.
  induction done as [|[k' v'] done IH]; intros Hk; simpl.
  - now rewrite String.eqb_refl.
  - destruct (String.eqb_spec k' k) as [->|_].
    + exfalso. apply Hk. now left.
    + apply IH. intros H. apply Hk. now right.
Qed.

Lemma setitem_app_fresh (k : string) (v x : Q) (todo : dict) :
  forall done, ~ In k (keys done) ->
    setitem k x (done ++ (k, v) :: todo) = done ++ (k, x) :: todo.
Proof.
  induction done as [|[k' v'] done IH]; intros Hk; simpl.
  - now rewrite String.eqb_refl.
  - destruct (String.eqb_spec k' k) as [->|_].
    + exfalso. apply Hk. now left.
    + rewrite IH; [reflexivity|]. intros H. apply Hk. now right.
Qed.

Lemma adjust_from_advance (cfg : config) (n : nat) (w : world) :
  forall p i,
    adjust_from cfg (rnd (advance n w)) i p = adjust_from cfg (rnd w) i p.
Proof. induction p as [|[k v] p IH]; intros i; simpl; [reflexivity|]. now rewrite IH. Qed.

Lemma randomness_loop_exact (cfg : config) :
  forall (todo done : dict) (w : world),
    NoDup (keys (done ++ todo)) ->
    randomness_loop (RESPONSE_LENGTH_RANDOMNESS cfg) (keys todo)
      (done ++ todo) w
    = (Ok (done ++ adjust_from cfg (rnd w) (used (rnd w)) todo),
       advance (List.length todo) w).
Proof.
  induction todo as [|[k v] todo IH]; intros done w Hnd.
  - simpl. rewrite !app_nil_r. now destruct w as [s [f pk u]].
  - assert (Hk : ~ In k (keys done)).
    { unfold keys in *. rewrite map_app in Hnd. simpl in Hnd.
      apply NoDup_remove_2 in Hnd. intros H. apply Hnd.
      apply in_or_app. now left. }
    cbn [keys map fst randomness_loop].
    unfold bind at 1, random_random at 1.
    unfold mul_item at 1. rewrite getitem_app_fresh by exact Hk.
    unfold bind at 1, ret at 1.
    rewrite setitem_app_fresh by exact Hk.
    change (map fst todo) with (keys todo).
    set (x := v * (1.0 + RESPONSE_LENGTH_RANDOMNESS cfg
                         * (floats (rnd w) (used (rnd w)) * 2 - 1))).
    change ({| self := self w;
               rnd := {| floats := floats (rnd w); picks := picks (rnd w);
                         used := S (used (rnd w)) |} |})
      with (advance 1 w).
    replace (done ++ (k, x) :: todo) with ((done ++ [(k, x)]) ++ todo)
      by (now rewrite <- app_assoc).
    rewrite IH.
    + rewrite adjust_from_advance, <- app_assoc. cbn [app adjust_from].
      unfold advance. cbn [self rnd floats picks used List.length].
      f_equal. f_equal. f_equal. lia.
    + unfold keys in *. rewrite !map_app in *. simpl in *.
      now rewrite <- app_assoc.
Qed.

Lemma random_adjustment_range (cfg : config) (g : rng) (i : nat) :
  0 <= RESPONSE_LENGTH_RANDOMNESS cfg ->
  0 <= floats g i -> floats g i < 1 ->
  1 - RESPONSE_LENGTH_RANDOMNESS cfg <= random_adjustment cfg g i /\
  random_adjustment cfg g i <= 1 + RESPONSE_LENGTH_RANDOMNESS cfg.
Proof.
  intros HR Hu0 Hu1. unfold random_adjustment.
  set (R := RESPONSE_LENGTH_RANDOMNESS cfg) in *.
  set (u := floats g i) in *.
  assert (0 <= R * u) by now apply Qmult_le_0_compat.
  assert (0 <= R * (1 - u)) by (apply Qmult_le_0_compat; lra).
  split; nra.
Qed.

Lemma adjust_from_keys (cfg : config) (g : rng) :
  forall p i, keys (adjust_from cfg g i p) = keys p.
Proof.
  induction p as [|[k v] p IH]; intros i; simpl; [reflexivity|].
  now rewrite IH.
Qed.

Lemma randomness_scales_each_weight_aux (cfg : config) (p : dict) (w : world) :
  keys p = response_types ->
  _apply_randomness cfg p w
  = (Ok (adjust_from cfg (rnd w) (used (rnd w)) p),
     advance (List.length p) w) /\
  List.length p = 5%nat.
Proof.
  intros Hk. split.
  - unfold _apply_randomness.
    apply (randomness_loop_exact cfg p [] w).
    cbn [app]. rewrite Hk. apply response_types_nodup.
  - apply (f_equal (@List.length string)) in Hk.
    unfold keys in Hk. now rewrite length_map in Hk.
Qed.

(** X16.  [_apply_randomness] on a dict: it makes one draw per item, in
    the order of the dict, never raises, keeps the keys, and multiplies
    the weight of the i-th item by [1 + R * (2 * u_i - 1)] where [u_i]
    is the i-th of these draws; with [R] not negative and the draws in
    [0, 1), each multiplier lies between [1 - R] and [1 + R]. *)
Theorem randomness_scales_each_weight (cfg : config) (p : dict) (w : world) :
  NoDup (keys p) ->
  _apply_randomness cfg p w
  = (Ok (adjust_from cfg (rnd w) (used (rnd w)) p),
     advance (List.length p) w) /\
  (0 <= RESPONSE_LENGTH_RANDOMNESS cfg -> unit_interval (rnd w) ->
   forall i,
     1 - RESPONSE_LENGTH_RANDOMNESS cfg <= random_adjustment cfg (rnd w) i /\
     random_adjustment cfg (rnd w) i <= 1 + RESPONSE_LENGTH_RANDOMNESS cfg).
Proof.
  intros Hnd. split.
  - unfold _apply_randomness.
    exact (randomness_loop_exact cfg p [] w Hnd).
  - intros HR Hg i. destruct (Hg i) as [H0 H1].
    now apply random_adjustment_range.
Qed.

Lemma randomness_scales_each_weight_witness :
  NoDup (keys (base_probabilities default_config)) /\
  0 <= RESPONSE_LENGTH_RANDOMNESS default_config /\
  unit_interval (rnd (fresh 0.5)) /\
  _apply_randomness default_config (base_probabilities default_config)
    (fresh 0.5)
  = (Ok (adjust_from default_config (rnd (fresh 0.5)) 0
           (base_probabilities default_config)),
     advance 5 (fresh 0.5)) /\
  1 - RESPONSE_LENGTH_RANDOMNESS default_config
  <= random_adjustment default_config (rnd (fresh 0.5)) 3.
Proof.
  assert (H0 : 0 <= RESPONSE_LENGTH_RANDOMNESS default_config) by discriminate.
  assert (Hg : unit_interval (rnd (fresh 0.5)))
    by (intros i; split; [discriminate | reflexivity]).
  destruct (randomness_scales_each_weight default_config
              (base_probabilities default_config) (fresh 0.5)
              response_types_nodup) as [H1 H2].
  split; [apply response_types_nodup|]. split; [exact H0|].
  split; [exact Hg|]. split; [exact H1|].
  apply (H2 H0 Hg 3%nat).
Defined.

(** *** Draws *)

Lemma pure_ret {A : Type} (a : A) : pure (ret a).
Proof. intros w. reflexivity. Qed.

Lemma pure_bind {A B : Type} (m : M A) (k : A -> M B) :
  pure m -> (forall a, pure (k a)) -> pure (bind m k).
Proof.
  intros Hm Hk w. unfold bind. specialize (Hm w).
  destruct (m w) as [[a|e] w1]; simpl in Hm; subst w1; [apply Hk|reflexivity].
Qed.

Lemma pure_mul_item (k : string) (f : Q) (p : dict) : pure (mul_item k f p).
Proof. intros w. unfold mul_item. now destruct (getitem k p). Qed.

Ltac pure_stage :=
  cbv beta;
  lazymatch goal with
  | |- pure (if ?c then _ else _) => destruct c; pure_stage
  | |- pure (bind _ _) => apply pure_bind; [pure_stage | intros ?; pure_stage]
  | |- pure (mul_item _ _ _) => apply pure_mul_item
  | |- pure (ret _) => apply pure_ret
  end.

Lemma content_pure (p : dict) (message_content : str) :
  pure (_adjust_probabilities_for_content p message_content).
Proof. unfold _adjust_probabilities_for_content. pure_stage. Qed.

Lemma context_pure (p : dict) (ctx : context) :
  pure (_adjust_probabilities_for_context p ctx).
Proof. unfold _adjust_probabilities_for_context. pure_stage. Qed.

Lemma variety_inactive (p : dict) (w : world) :
  last_response_type (self w) = None \/
  (consecutive_same_type_count (self w) <= 0)%Z ->
  _adjust_probabilities_for_variety p w = (Ok p, w).
Proof.
  intros H. unfold _adjust_probabilities_for_variety, bind, get_self.
  destruct H as [H|H].
  - rewrite H. simpl. now rewrite andb_false_r.
  - apply Z.ltb_ge in H. now rewrite H.
Qed.

Lemma returns_pure {A : Type} (m : M A) (w : world) (post : A -> Prop) :
  returns m w post -> pure m -> exists a, m w = (Ok a, w) /\ post a.
Proof.
  intros (a & w1 & Heq & _ & Ha) Hp. specialize (Hp w).
  rewrite Heq in Hp. simpl in Hp. subst w1. now exists a.
Qed.

Lemma adjusted_without_variety (cfg : config) (message_content : str)
    (ctx : option context) (w : world) :
  last_response_type (self w) = None \/
  (consecutive_same_type_count (self w) <= 0)%Z ->
  exists p, adjusted_probabilities cfg message_content ctx w
            = (Ok p, advance 5 w) /\ keys p = response_types.
Proof.
  intros Hoff. unfold adjusted_probabilities.
  pose proof (base_keys cfg) as Hk.
  destruct (returns_pure _ w _
              (content_stage AnyFactor _ _ message_content w Hk
                 (scaled_refl _ _))
              (content_pure _ _)) as (p1 & Heq1 & Hs1).
  unfold bind at 1. rewrite Heq1.
  assert (Hctx : exists p2,
             match ctx with
             | Some c => _adjust_probabilities_for_context p1 c
             | None => ret p1
             end w = (Ok p2, w) /\
             scaled AnyFactor (base_probabilities cfg) p2).
  { destruct ctx as [c|].
    - exact (returns_pure _ w _ (context_stage AnyFactor _ _ c w Hk Hs1)
               (context_pure _ _)).
    - now exists p1. }
  destruct Hctx as (p2 & Heq2 & Hs2).
  unfold bind at 1. rewrite Heq2.
  unfold bind at 1. rewrite (variety_inactive p2 w Hoff).
  pose proof (scaled_keys _ _ _ Hs2) as Hk2. rewrite Hk in Hk2.
  destruct (randomness_scales_each_weight_aux cfg p2 w) as [Heq3 Hlen];
    [now rewrite Hk2|].
  rewrite Heq3, Hlen. eexists. split; [reflexivity|].
  now rewrite adjust_from_keys.
Qed.

(** X17.  While the variety stage is idle (no class recorded yet, or a
    count of 0), an enabled call makes exactly six draws when it
    returns, five for the randomness stage and one to sample, and
    returns one of the five classes; when it stops at the division by
    zero it has made the five draws of the randomness stage and has
    left the manager as it was. *)
Theorem draws_while_variety_idle (cfg : config) (message_content : str)
    (ctx : option context) (w : world) :
  DYNAMIC_MESSAGE_LENGTH_ENABLED cfg = true ->
  last_response_type (self w) = None \/
  (consecutive_same_type_count (self w) <= 0)%Z ->
  (exists r w',
     get_response_type cfg message_content ctx w = (Ok r, w') /\
     In r response_types /\
     used (rnd w') = (6 + used (rnd w))%nat /\
     self w' = update_tracking r (self w)) \/
  get_response_type cfg message_content ctx w
  = (Raise ZeroDivisionError, advance 5 w).
Proof.
  intros Hen Hoff.
  destruct (adjusted_without_variety cfg message_content ctx w Hoff)
    as (p & Hadj & Hk).
  rewrite (get_response_type_after cfg message_content ctx w _ p Hen Hadj)
    by (intros ->; discriminate).
  destruct (Qeq_bool (total p) 0).
  - now right.
  - left. eexists _, _. split; [reflexivity|].
    split; [now apply selected_valid|]. split; reflexivity.
Qed.

Lemma draws_while_variety_idle_witness :
  DYNAMIC_MESSAGE_LENGTH_ENABLED default_config = true /\
  last_response_type (self (fresh 0.5)) = None /\
  used (rnd (snd (get_response_type default_config (lit "hi") None (fresh 0.5))))
  = 6%nat.
Proof.
  split; [reflexivity|]. split; [reflexivity|].
  destruct (draws_while_variety_idle default_config (lit "hi") None (fresh 0.5)
              eq_refl (or_introl eq_refl))
    as [(r & w' & Heq & _ & Hused & _)|Heq]; rewrite Heq.
  - exact Hused.
  - exfalso.
    assert (E : fst (get_response_type default_config (lit "hi") None
                       (fresh 0.5)) = Raise ZeroDivisionError)
      by (rewrite Heq; reflexivity).
    vm_compute in E. discriminate E.
Defined.

End StagesProofs.
